(** * The synthetic disk-image generator of [tutorials/segmentation.ipynb]

    A shallow embedding of the class [Data_Generator] (its constructor and
    its method [generate]) together with the handful of NumPy operations
    the class calls, followed by the properties of the generator.

    Modelling choices.
    - Python [int]s are [Z]; Python/NumPy floats are exact rationals [Q]:
      rounding, infinities and NaN are outside the model, and so is the
      [OverflowError] of a number or of a range [high - low] that
      binary64 cannot hold.
    - NumPy's own limits are in the model: [np.zeros] refuses a size whose
      byte count does not fit its index type, and [np.random.poisson] a
      rate above [POISSON_LAM_MAX].  Memory is not: an allocation that
      NumPy accepts succeeds, [MemoryError] is outside the model.
    - A two-dimensional NumPy array is its [shape] and its list of rows.
    - The two arrays an instance owns, [self.img] and [self.img_truth], are
      mutable objects that [generate] hands out to its caller: they live in
      a store ([gmap] from locations to arrays) and the instance holds
      their locations.  Temporaries ([xx], [yy], [mask], [noise]) are
      values.
    - An uncaught exception aborts the run: a computation is a function
      from the store to either an exception or a value and a new store.
    - The random source is explicit: one record [Draws] holds the raw
      outcomes of every draw a call of [generate] makes. *)

From Stdlib Require Import QArith Qminmax Qround Qabs Lqa.
From stdpp Require Import base option list gmap.

(** ** Exceptions and computations *)

Inductive exn : Type :=
  | ValueError   (* NumPy: negative dimension, array too big, [lam]
                    negative or too large, negative [scale], operands
                    that cannot be broadcast together *)
  | IndexError   (* NumPy: boolean index of the wrong shape *)
  | StaleRef.    (* a location absent from the store: not a Python
                    exception, and never met from a constructed
                    instance *)

Inductive result (A : Type) : Type :=
  | Ok (a : A)
  | Raise (e : exn).
Arguments Ok {A} a.
Arguments Raise {A} e.

#[export] Instance result_ret : MRet result := λ A a, Ok a.
#[export] Instance result_bind : MBind result := λ A B f r,
  match r with Ok a => f a | Raise e => Raise e end.
#[export] Instance result_fmap : FMap result := λ A B f r,
  match r with Ok a => Ok (f a) | Raise e => Raise e end.

(** ** Arrays *)

Record ndarray (A : Type) : Type := NDArray {
  shape : nat * nat;
  rows : list (list A)
}.
Arguments NDArray {A} shape rows.
Arguments shape {A} _.
Arguments rows {A} _.

(** [a[i, j]] *)
Definition px {A} (a : ndarray A) (i j : nat) : option A :=
  row ← rows a !! i; row !! j.

(** The rows agree with the declared shape. *)
Definition wf {A} (a : ndarray A) : Prop :=
  length (rows a) = (shape a).1 ∧
  Forall (λ row, length row = (shape a).2) (rows a).

Definition tabulate {A} (n m : nat) (f : nat → nat → A) : ndarray A :=
  NDArray (n, m) ((λ i, f i <$> seq 0 m) <$> seq 0 n).

(** Element-wise unary and binary operations. *)
Definition amap {A B} (f : A → B) (a : ndarray A) : ndarray B :=
  NDArray (shape a) ((λ row : list A, f <$> row) <$> rows a).

Definition azip {A B C} (f : A → B → C) (a : ndarray A) (b : ndarray B)
    : ndarray C :=
  NDArray (shape a) (zip_with (zip_with f) (rows a) (rows b)).

Definition Qlt_bool (a b : Q) : bool :=
  match (a ?= b)%Q with Lt => true | _ => false end.

(** ** The NumPy operations used by the class *)

(** The largest value of NumPy's index type [npy_intp], on a 64-bit
    platform. *)
Definition NPY_MAX_INTP : Z := 2 ^ 63 - 1.

(** The byte count NumPy computes for a [float64] array of shape
    [(n, m)] before it allocates it: the item size [8] times the
    dimensions, those equal to [0] left out. *)
Definition nbytes (size : Z * Z) : Z :=
  let '(n, m) := size in
  (8 * (if n =? 0 then 1 else n) * (if m =? 0 then 1 else m))%Z.

(** [np.zeros((n, m))]: [ValueError] for a negative dimension and for a
    byte count beyond [NPY_MAX_INTP] (so for [(2**62, 0)] as well).  The
    other arrays the class allocates ([linspace], [meshgrid], [randn],
    the results of the arithmetic) have byte counts that [np.zeros] has
    accepted when the instance was constructed. *)
Definition np_zeros (size : Z * Z) : result (ndarray Q) :=
  let '(n, m) := size in
  if ((n <? 0) || (m <? 0))%Z then Raise ValueError
  else if (NPY_MAX_INTP <? nbytes (n, m))%Z then Raise ValueError
  else Ok (NDArray (Z.to_nat n, Z.to_nat m)
                   (replicate (Z.to_nat n) (replicate (Z.to_nat m) 0%Q))).

(** [np.linspace(start, stop, num)]: [num] evenly spaced samples, the
    [k]-th being [start + k * (stop - start) / (num - 1)].  For [num = 1]
    NumPy returns [[start]]; so does the formula, [k] being [0]. *)
Definition np_linspace (start stop : Q) (num : Z) : result (list Q) :=
  if (num <? 0)%Z then Raise ValueError
  else
    let step := ((stop - start) / inject_Z (num - 1))%Q in
    Ok ((λ k : nat, (start + inject_Z (Z.of_nat k) * step)%Q)
          <$> seq 0 (Z.to_nat num)).

(** [np.meshgrid(x, y)] with the default [indexing='xy']: both results
    have shape [(len(y), len(x))], [xx[i, j] = x[j]] and
    [yy[i, j] = y[i]]. *)
Definition np_meshgrid (x y : list Q) : ndarray Q * ndarray Q :=
  (NDArray (length y, length x) ((λ _, x) <$> y),
   NDArray (length y, length x) ((λ yi, (λ _, yi) <$> x) <$> y)).

(** [np.power(a, 2)] and the scalar [r**2] *)
Definition np_power (a : ndarray Q) (e : Z) : ndarray Q :=
  amap (λ q, (q ^ e)%Q) a.

(** [a - c], [c * a] and [a < c] for a scalar [c] *)
Definition sub_scalar (a : ndarray Q) (c : Q) : ndarray Q :=
  amap (λ q, (q - c)%Q) a.
Definition mul_scalar (c : Q) (a : ndarray Q) : ndarray Q :=
  amap (λ q, (c * q)%Q) a.
Definition lt_scalar (a : ndarray Q) (c : Q) : ndarray bool :=
  amap (λ q, Qlt_bool q c) a.

(** [a + b].  Both uses in [generate] add arrays of one shape; shapes
    that differ are refused here (NumPy would first try to broadcast
    axes of length one).  No run of a constructed generator reaches
    that refusal, see
    [session_raises_only_IndexError]. *)
Definition np_add (a b : ndarray Q) : result (ndarray Q) :=
  if decide (shape a = shape b) then Ok (azip Qplus a b)
  else Raise ValueError.

(** [a[mask] = v] for a boolean array [mask]: the shapes must agree. *)
Definition setitem_mask (a : ndarray Q) (mask : ndarray bool) (v : Q)
    : result (ndarray Q) :=
  if decide (shape mask = shape a)
  then Ok (azip (λ q (b : bool), if b then v else q) a mask)
  else Raise IndexError.

(** [np.clip(a, lo, hi)] is [minimum(maximum(a, lo), hi)]. *)
Definition clip (lo hi q : Q) : Q := Qmin (Qmax q lo) hi.
Definition np_clip (a : ndarray Q) (lo hi : Q) : ndarray Q :=
  amap (clip lo hi) a.

(** ** The random source

    The raw outcomes of the draws of one call of [generate]: the Poisson
    count, then for the [n]-th disk three uniform samples of [[0, 1)] and
    one standard normal sample, and last the standard normal sample of
    each pixel.  *)
Record Draws : Type := {
  poisson_k : nat;
  u_xc : nat → Q;
  u_yc : nat → Q;
  z_r : nat → Q;
  u_v : nat → Q;
  randn_z : nat → nat → Q
}.

(** The largest rate [np.random.poisson] accepts, NumPy's constant
    [POISSON_LAM_MAX = 9.223372006484771e+18]: the binary64 number next
    to [2^63 - 1 - 10 * sqrt (2^63 - 1)]. *)
Definition POISSON_LAM_MAX : Q := inject_Z 9223372006484770816.

(** [np.random.poisson(lam)]: [ValueError] for [lam < 0] and for
    [lam > POISSON_LAM_MAX]. *)
Definition np_random_poisson (d : Draws) (lam : Q) : result nat :=
  if Qlt_bool lam 0 then Raise ValueError
  else if Qlt_bool POISSON_LAM_MAX lam then Raise ValueError
  else Ok (poisson_k d).

(** [np.random.uniform(low, high)] is [low + (high - low) * u]. *)
Definition np_random_uniform (u low high : Q) : Q :=
  (low + (high - low) * u)%Q.

(** [np.random.normal(loc, scale)] is [loc + scale * z]. *)
Definition np_random_normal (z loc scale : Q) : result Q :=
  if Qlt_bool scale 0 then Raise ValueError else Ok (loc + scale * z)%Q.

(** [np.random.randn(n, m)] *)
Definition np_random_randn (d : Draws) (n m : Z) : result (ndarray Q) :=
  if ((n <? 0) || (m <? 0))%Z then Raise ValueError
  else Ok (tabulate (Z.to_nat n) (Z.to_nat m) (randn_z d)).

(** ** The store *)

Abbreviation loc := positive.
Abbreviation heap := (gmap positive (ndarray Q)).

Definition M (A : Type) : Type := heap → result (A * heap).

#[export] Instance M_ret : MRet M := λ A a h, Ok (a, h).
#[export] Instance M_bind : MBind M := λ A B f m h,
  match m h with Ok (a, h') => f a h' | Raise e => Raise e end.

Definition lift {A} (r : result A) : M A := λ h,
  match r with Ok a => Ok (a, h) | Raise e => Raise e end.
Definition load (l : loc) : M (ndarray Q) := λ h,
  match h !! l with Some a => Ok (a, h) | None => Raise StaleRef end.
Definition store (l : loc) (a : ndarray Q) : M unit := λ h,
  Ok (tt, <[l := a]> h).
Definition alloc (a : ndarray Q) : M loc := λ h,
  let l := fresh (dom h) in Ok (l, <[l := a]> h).

Fixpoint for_each {A} (l : list A) (body : A → M unit) : M unit :=
  match l with
  | [] => mret tt
  | a :: l => _ ← body a; for_each l body
  end.

(** [for n in range(k): body] *)
Definition for_range (k : nat) (body : nat → M unit) : M unit :=
  for_each (seq 0 k) body.

(** ** The class [Data_Generator] *)

Record Data_Generator : Type := {
  nx : Z; ny : Z;
  theta : Q;
  rmean : Q; rstd : Q;
  vmin : Q; vmax : Q;
  sigma : Q;
  img : loc;
  img_truth : loc;
  ndisks : option nat
}.

Definition set_ndisks (self : Data_Generator) (k : nat) : Data_Generator :=
  {| nx := nx self; ny := ny self; theta := theta self;
     rmean := rmean self; rstd := rstd self;
     vmin := vmin self; vmax := vmax self; sigma := sigma self;
     img := img self; img_truth := img_truth self; ndisks := Some k |}.

Definition set_img (self : Data_Generator) (l : loc) : Data_Generator :=
  {| nx := nx self; ny := ny self; theta := theta self;
     rmean := rmean self; rstd := rstd self;
     vmin := vmin self; vmax := vmax self; sigma := sigma self;
     img := l; img_truth := img_truth self; ndisks := ndisks self |}.

(** [Data_Generator(size, theta, rmean, rstd, vmin, vmax, sigma)] *)
Definition __init__ (size : Z * Z) (theta rmean rstd vmin vmax sigma : Q)
    : M Data_Generator :=
  let '(nx, ny) := size in
  z1 ← lift (np_zeros (nx, ny));
  l1 ← alloc z1;
  z2 ← lift (np_zeros (nx, ny));
  l2 ← alloc z2;
  mret {| nx := nx; ny := ny; theta := theta;
          rmean := rmean; rstd := rstd;
          vmin := vmin; vmax := vmax; sigma := sigma;
          img := l1; img_truth := l2; ndisks := None |}.

(** The comparison of line 143,
    [np.power(xx - xc, 2) + np.power(yy - yc, 2) - r**2 < 0]. *)
Definition disk_mask (xx yy : ndarray Q) (xc yc r : Q)
    : result (ndarray bool) :=
  s ← np_add (np_power (sub_scalar xx xc) 2) (np_power (sub_scalar yy yc) 2);
  mret (lt_scalar (sub_scalar s (r ^ 2)%Q) 0).

(** Lines 143-145: rasterise one disk into both arrays, in place. *)
Definition paint (self : Data_Generator) (xx yy : ndarray Q) (xc yc r v : Q)
    : M unit :=
  mask ← lift (disk_mask xx yy xc yc r);
  a ← load (img self);
  a' ← lift (setitem_mask a mask v);
  _ ← store (img self) a';
  t ← load (img_truth self);
  t' ← lift (setitem_mask t mask 1%Q);
  store (img_truth self) t'.

(** The body of the loop, lines 138-145, for the [n]-th disk. *)
Definition draw_disk (self : Data_Generator) (d : Draws) (xx yy : ndarray Q)
    (n : nat) : M unit :=
  let xc := np_random_uniform (u_xc d n) 0 (inject_Z (nx self)) in
  let yc := np_random_uniform (u_yc d n) 0 (inject_Z (ny self)) in
  r ← lift (np_random_normal (z_r d n) (rmean self) (rstd self));
  let v := np_random_uniform (u_v d n) (vmin self) (vmax self) in
  paint self xx yy xc yc r v.

(** Lines 130-132: the coordinate arrays [xx] and [yy]. *)
Definition pixel_grid (nx ny : Z) : result (ndarray Q * ndarray Q) :=
  x ← np_linspace 0 (inject_Z (nx - 1)) nx;
  y ← np_linspace 0 (inject_Z (ny - 1)) ny;
  mret (np_meshgrid x y).

(** [generate(self)]: the result is the updated instance and the pair of
    references [(self.img, self.img_truth)] the method returns. *)
Definition generate (self : Data_Generator) (d : Draws)
    : M (Data_Generator * (loc * loc)) :=
  '(xx, yy) ← lift (pixel_grid (nx self) (ny self));
  k ← lift (np_random_poisson d (theta self));
  let self := set_ndisks self k in
  _ ← for_range k (draw_disk self d xx yy);
  noise ← lift (mul_scalar (sigma self)
                  <$> np_random_randn d (nx self) (ny self));
  a ← load (img self);
  s ← lift (np_add a noise);
  l ← alloc (np_clip s 0 255);
  let self := set_img self l in
  mret (self, (img self, img_truth self)).

(** ** Observing a generator

    What a caller sees of a returned pair of references at the moment
    [generate] returns, and the successive pairs seen over a run of
    calls on one instance. *)
Definition deref (p : loc * loc) : M (ndarray Q * ndarray Q) :=
  a ← load p.1; t ← load p.2; mret (a, t).

Fixpoint calls (self : Data_Generator) (ds : list Draws)
    : M (list (ndarray Q * ndarray Q)) :=
  match ds with
  | [] => mret []
  | d :: ds =>
      '(self', p) ← generate self d;
      v ← deref p;
      vs ← calls self' ds;
      mret (v :: vs)
  end.

(** ** Configurations and runs *)

Record GeneratorConfig : Type := {
  c_size : Z * Z;
  c_theta : Q;
  c_rmean : Q; c_rstd : Q;
  c_vmin : Q; c_vmax : Q;
  c_sigma : Q
}.

Definition config_of (self : Data_Generator) : GeneratorConfig :=
  {| c_size := (nx self, ny self); c_theta := theta self;
     c_rmean := rmean self; c_rstd := rstd self;
     c_vmin := vmin self; c_vmax := vmax self; c_sigma := sigma self |}.

Definition construct (c : GeneratorConfig) : M Data_Generator :=
  __init__ (c_size c) (c_theta c) (c_rmean c) (c_rstd c)
           (c_vmin c) (c_vmax c) (c_sigma c).

(** A fresh interpreter: construct one generator, call it once for each
    element of [ds]. *)
Definition session (c : GeneratorConfig) (ds : list Draws)
    : result (list (ndarray Q * ndarray Q)) :=
  fst <$> (self ← construct c; calls self ds) ∅.

(** The pair of arrays a first call returned, read when the call
    returned and read again after a second call on the instance. *)
Definition first_pair_over_two_calls (c : GeneratorConfig) (d1 d2 : Draws)
    : result ((ndarray Q * ndarray Q) * (ndarray Q * ndarray Q)) :=
  fst <$> (self ← construct c;
           '(self1, p1) ← generate self d1;
           before ← deref p1;
           _ ← generate self1 d2;
           after ← deref p1;
           mret (before, after)) ∅.

(** Two instances called in turn in one store, each call of the first
    followed by the corresponding call of the second. *)
Fixpoint calls2 (a b : Data_Generator) (ds : list Draws)
    : M (list ((ndarray Q * ndarray Q) * (ndarray Q * ndarray Q))) :=
  match ds with
  | [] => mret []
  | d :: ds =>
      '(a', pa) ← generate a d;
      va ← deref pa;
      '(b', pb) ← generate b d;
      vb ← deref pb;
      vs ← calls2 a' b' ds;
      mret ((va, vb) :: vs)
  end.

(** Each element of a list, paired with itself. *)
Definition twice {X} (vs : list X) : list (X * X) := (λ v, (v, v)) <$> vs.

(** ** The generator on values

    The same computation with the store taken away: what [generate] does
    to the contents [A] of [self.img] and [T] of [self.img_truth].  The
    lemma [generate_run] below shows that [generate] computes exactly
    this on the two cells of its instance. *)

(** The all-zero array of shape [(n, m)]. *)
Definition zeros (n m : nat) : ndarray Q :=
  NDArray (n, m) (replicate n (replicate m 0%Q)).

(** The value of the comparison of line 143 when it does not raise. *)
Definition mask_of (xx yy : ndarray Q) (xc yc r : Q) : ndarray bool :=
  lt_scalar
    (sub_scalar
       (azip Qplus (np_power (sub_scalar xx xc) 2)
                   (np_power (sub_scalar yy yc) 2))
       (r ^ 2)%Q) 0.

Definition paint_values (A T xx yy : ndarray Q) (xc yc r v : Q)
    : result (ndarray Q * ndarray Q) :=
  mask ← disk_mask xx yy xc yc r;
  a' ← setitem_mask A mask v;
  t' ← setitem_mask T mask 1%Q;
  mret (a', t').

(** The four parameters of the [n]-th disk of a call. *)
Definition disk_xc (c : GeneratorConfig) (d : Draws) (n : nat) : Q :=
  np_random_uniform (u_xc d n) 0 (inject_Z (c_size c).1).
Definition disk_yc (c : GeneratorConfig) (d : Draws) (n : nat) : Q :=
  np_random_uniform (u_yc d n) 0 (inject_Z (c_size c).2).
Definition disk_r (c : GeneratorConfig) (d : Draws) (n : nat) : Q :=
  (c_rmean c + c_rstd c * z_r d n)%Q.
Definition disk_v (c : GeneratorConfig) (d : Draws) (n : nat) : Q :=
  np_random_uniform (u_v d n) (c_vmin c) (c_vmax c).

Definition draw_disk_values (c : GeneratorConfig) (d : Draws)
    (xx yy : ndarray Q) (AT : ndarray Q * ndarray Q) (n : nat)
    : result (ndarray Q * ndarray Q) :=
  r ← np_random_normal (z_r d n) (c_rmean c) (c_rstd c);
  paint_values AT.1 AT.2 xx yy (disk_xc c d n) (disk_yc c d n) r
               (disk_v c d n).

Fixpoint foldM {S X} (f : S → X → result S) (s : S) (l : list X)
    : result S :=
  match l with
  | [] => Ok s
  | x :: l => s' ← f s x; foldM f s' l
  end.

(** From the contents [(A, T)] before a call to the disk count, the
    contents of the old image array, of the new image array and of the
    mask array after it. *)
Definition generate_values (c : GeneratorConfig) (d : Draws)
    (A T : ndarray Q) : result (nat * ndarray Q * ndarray Q * ndarray Q) :=
  '(xx, yy) ← pixel_grid (c_size c).1 (c_size c).2;
  k ← np_random_poisson d (c_theta c);
  '(A1, T1) ← foldM (draw_disk_values c d xx yy) (A, T) (seq 0 k);
  noise ← mul_scalar (c_sigma c)
            <$> np_random_randn d (c_size c).1 (c_size c).2;
  s ← np_add A1 noise;
  mret (k, A1, np_clip s 0 255, T1).

Fixpoint calls_values (c : GeneratorConfig) (ds : list Draws)
    (A T : ndarray Q) : result (list (ndarray Q * ndarray Q)) :=
  match ds with
  | [] => Ok []
  | d :: ds =>
      '(_, _, A2, T1) ← generate_values c d A T;
      vs ← calls_values c ds A2 T1;
      mret ((A2, T1) :: vs)
  end.

(** The test of line 143 for the [n]-th disk at a point [(x, y)], and
    what the loop over the disks [ns] makes of one pixel of the image and
    of one pixel of the mask. *)
Definition hit (c : GeneratorConfig) (d : Draws) (n : nat) (x y : Q) : bool :=
  Qlt_bool ((x - disk_xc c d n) ^ 2 + (y - disk_yc c d n) ^ 2
            - disk_r c d n ^ 2)%Q 0.

Definition px_image (c : GeneratorConfig) (d : Draws) (x y : Q)
    (ns : list nat) (q : Q) : Q :=
  foldl (λ q n, if hit c d n x y then disk_v c d n else q) q ns.

Definition px_mask (c : GeneratorConfig) (d : Draws) (x y : Q)
    (ns : list nat) (q : Q) : Q :=
  foldl (λ q n, if hit c d n x y then 1%Q else q) q ns.

(** ** Vocabulary of the statements *)

(** The open disc of centre [(xc, yc)] and radius [r]. *)
Definition inside (xc yc r x y : Q) : Prop :=
  ((x - xc) ^ 2 + (y - yc) ^ 2 < r ^ 2)%Q.

(** The pixel stored at row [i], column [j] has coordinates
    [x = j], [y = i]. *)
Definition covers (c : GeneratorConfig) (d : Draws) (n i j : nat) : Prop :=
  inside (disk_xc c d n) (disk_yc c d n) (disk_r c d n)
         (inject_Z (Z.of_nat j)) (inject_Z (Z.of_nat i)).

(** The constraints the specification puts on a configuration. *)
Definition valid_configuration (c : GeneratorConfig) : Prop :=
  (1 ≤ (c_size c).1)%Z ∧ (1 ≤ (c_size c).2)%Z ∧
  (0 < c_theta c)%Q ∧ (c_vmin c <= c_vmax c)%Q ∧ (0 <= c_sigma c)%Q.

(** The two cells of an instance hold [A] and [T]. *)
Definition holds (self : Data_Generator) (h : heap) (A T : ndarray Q)
    : Prop :=
  h !! img self = Some A ∧ h !! img_truth self = Some T ∧
  img self ≠ img_truth self.

(** Two instances of one configuration whose cells are four distinct
    locations of the store and hold the same contents. *)
Definition twins (a b : Data_Generator) (h : heap) (A T : ndarray Q)
    : Prop :=
  config_of a = config_of b ∧ holds a h A T ∧ holds b h A T ∧
  img a ≠ img b ∧ img a ≠ img_truth b ∧
  img_truth a ≠ img b ∧ img_truth a ≠ img_truth b.

(** The entry [a[i, j]] exists and is the rational [q]. *)
Definition px_eq (a : ndarray Q) (i j : nat) (q : Q) : Prop :=
  ∃ x, px a i j = Some x ∧ (x == q)%Q.

(** ** Concrete configurations and draws *)

(** A 3 x 3 grid; the radius is [1 + z] and the value [100 + 100 u]. *)
Definition c_demo : GeneratorConfig :=
  {| c_size := (3, 3)%Z; c_theta := 5; c_rmean := 1; c_rstd := 1;
     c_vmin := 100; c_vmax := 200; c_sigma := 1 |}.

(** The same without noise. *)
Definition c_quiet : GeneratorConfig :=
  {| c_size := (3, 3)%Z; c_theta := 5; c_rmean := 1; c_rstd := 1;
     c_vmin := 100; c_vmax := 200; c_sigma := 0 |}.

(** A 2 x 3 grid with the parameters of the notebook. *)
Definition c_2x3 : GeneratorConfig :=
  {| c_size := (2, 3)%Z; c_theta := 5; c_rmean := 4; c_rstd := 1 # 2;
     c_vmin := 15; c_vmax := 200; c_sigma := 30 |}.

(** The notebook's parameters with the intensity bounds swapped and a
    negative noise level. *)
Definition c_swapped : GeneratorConfig :=
  {| c_size := (64, 64)%Z; c_theta := 5; c_rmean := 4; c_rstd := 1 # 2;
     c_vmin := 200; c_vmax := 15; c_sigma := - 30 |}.

(** The notebook's parameters on a grid of [2^62 x 2^62] pixels: the
    constraints hold and [np.zeros] refuses the size. *)
Definition c_huge : GeneratorConfig :=
  {| c_size := (2 ^ 62, 2 ^ 62)%Z; c_theta := 5; c_rmean := 4;
     c_rstd := 1 # 2; c_vmin := 15; c_vmax := 200; c_sigma := 30 |}.

(** A grid without pixels that [np.zeros] refuses all the same. *)
Definition c_wide_empty : GeneratorConfig :=
  {| c_size := (2 ^ 62, 0)%Z; c_theta := 5; c_rmean := 4;
     c_rstd := 1 # 2; c_vmin := 15; c_vmax := 200; c_sigma := 30 |}.

(** One disk of centre [(1, 1)], radius [1] and value [150]: on the
    3 x 3 grid it covers the middle pixel alone.  No noise. *)
Definition d_centre : Draws :=
  {| poisson_k := 1; u_xc := λ _, 1 # 3; u_yc := λ _, 1 # 3;
     z_r := λ _, 0%Q; u_v := λ _, 1 # 2; randn_z := λ _ _, 0%Q |}.

(** One disk of centre [(0, 0)], radius [1] and value [100]: it covers
    the pixel of the corner alone.  No noise. *)
Definition d_corner : Draws :=
  {| poisson_k := 1; u_xc := λ _, 0%Q; u_yc := λ _, 0%Q;
     z_r := λ _, 0%Q; u_v := λ _, 0%Q; randn_z := λ _ _, 0%Q |}.

(** No disk; every noise sample is [5]. *)
Definition d_none : Draws :=
  {| poisson_k := 0; u_xc := λ _, 0%Q; u_yc := λ _, 0%Q;
     z_r := λ _, 0%Q; u_v := λ _, 0%Q; randn_z := λ _ _, 5%Q |}.

(** Two disks of radius [6/5]: the first of centre [(1, 1)] and value
    [100], the second of centre [(2, 1)] and value [150]. *)
Definition d_pair : Draws :=
  {| poisson_k := 2;
     u_xc := λ n, match n with 0 => 1 # 3 | _ => 2 # 3 end;
     u_yc := λ _, 1 # 3;
     z_r := λ _, 1 # 5;
     u_v := λ n, match n with 0 => 0%Q | _ => 1 # 2 end;
     randn_z := λ _ _, 0%Q |}.

(** One disk in the middle and a noise sample of [1000] everywhere. *)
Definition d_loud : Draws :=
  {| poisson_k := 1; u_xc := λ _, 1 # 3; u_yc := λ _, 1 # 3;
     z_r := λ _, 0%Q; u_v := λ _, 1 # 2; randn_z := λ _ _, 1000%Q |}.

(** ** Vocabulary of the further properties *)

(** Every entry of the array is [0] or [1]. *)
Definition binary (T : ndarray Q) : Prop :=
  ∀ i j q, px T i j = Some q → q = 0%Q ∨ q = 1%Q.

(** Some disk drawn by one of the calls [0 .. k] of a run covers the
    pixel of row [i], column [j]. *)
Definition drawn_upto (c : GeneratorConfig) (ds : list Draws)
    (k i j : nat) : Prop :=
  ∃ k' d n, k' ≤ k ∧ ds !! k' = Some d ∧ n < poisson_k d ∧ covers c d n i j.


(** The values a noiseless image can take. *)
Definition disk_or_background (c : GeneratorConfig) (q : Q) : Prop :=
  (q == 0)%Q ∨ (c_vmin c <= q <= c_vmax c)%Q.

(** The pixel below and to the left of a point of the plane. *)
Definition pixel_below (q : Q) : nat := Z.to_nat (Qfloor q).


(** The 3 x 3 grid with a negative rate of disks. *)
Definition c_negative_rate : GeneratorConfig :=
  {| c_size := (3, 3)%Z; c_theta := - 1; c_rmean := 1; c_rstd := 1;
     c_vmin := 100; c_vmax := 200; c_sigma := 1 |}.

(** A 2 x 3 grid with a negative deviation of the radius. *)
Definition c_negative_spread : GeneratorConfig :=
  {| c_size := (2, 3)%Z; c_theta := 5; c_rmean := 4; c_rstd := - (1 # 2);
     c_vmin := 15; c_vmax := 200; c_sigma := 30 |}.


(** One disk of centre [(3/2, 3/2)], radius [2] and value [150]. *)
Definition d_wide : Draws :=
  {| poisson_k := 1; u_xc := λ _, 1 # 2; u_yc := λ _, 1 # 2;
     z_r := λ _, 1%Q; u_v := λ _, 1 # 2; randn_z := λ _ _, 0%Q |}.

(** The largest finite binary64 number. *)
Definition DBL_MAX : Q := inject_Z (2 ^ 1024 - 2 ^ 971).

(** The real parameters are within the range of binary64, and so is the
    range of the intensities: outside it NumPy's samplers raise
    [OverflowError], which the exact arithmetic of the model does not
    have. *)
Definition binary64_parameters (c : GeneratorConfig) : Prop :=
  (Qabs (c_rmean c) <= DBL_MAX)%Q ∧ (Qabs (c_rstd c) <= DBL_MAX)%Q ∧
  (Qabs (c_vmin c) <= DBL_MAX)%Q ∧ (Qabs (c_vmax c) <= DBL_MAX)%Q ∧
  (Qabs (c_vmax c - c_vmin c) <= DBL_MAX)%Q ∧
  (Qabs (c_sigma c) <= DBL_MAX)%Q.

(** A run stays within the range of binary64: the parameters do, and so
    does the square [r**2] of every radius drawn, which Python would
    otherwise refuse with [OverflowError].  The statements that say what
    a run can raise exclude by this hypothesis what exact arithmetic
    cannot show. *)
Definition within_binary64 (c : GeneratorConfig) (ds : list Draws) : Prop :=
  binary64_parameters c ∧
  ∀ d, d ∈ ds → ∀ n, n < poisson_k d → (disk_r c d n ^ 2 <= DBL_MAX)%Q.

(** * Properties *)

(** ** Rationals *)

Lemma Qlt_bool_iff (a b : Q) : Qlt_bool a b = true ↔ (a < b)%Q.
Proof.
  unfold Qlt_bool. rewrite Qlt_alt.
  destruct (a ?= b)%Q; split; congruence.
Qed.

Lemma Qlt_bool_false (a b : Q) : Qlt_bool a b = false ↔ (b <= a)%Q.
Proof.
  rewrite <- not_true_iff_false, Qlt_bool_iff. split.
  - apply Qnot_lt_le.
  - apply Qle_not_lt.
Qed.

#[export] Instance Qlt_bool_proper : Proper (Qeq ==> Qeq ==> eq) Qlt_bool.
Proof.
  intros a a' Ha b b' Hb.
  destruct (Qlt_bool a' b') eqn:E.
  - apply Qlt_bool_iff. apply Qlt_bool_iff in E. by rewrite Ha, Hb.
  - apply Qlt_bool_false. apply Qlt_bool_false in E. by rewrite Ha, Hb.
Qed.

Lemma clip_range (lo hi q : Q) : (lo <= hi)%Q → (lo <= clip lo hi q <= hi)%Q.
Proof.
  intros Hlh. unfold clip. split.
  - apply Q.min_glb; [apply Q.le_max_r | done].
  - apply Q.le_min_r.
Qed.

Lemma clip_id (lo hi q : Q) : (lo <= q <= hi)%Q → (clip lo hi q == q)%Q.
Proof.
  intros [H1 H2]. unfold clip.
  rewrite Q.max_l by done. by rewrite Q.min_l.
Qed.

(** ** Arrays *)

Section arrays.
Context {A B C : Type}.
Implicit Types (a : ndarray A) (b : ndarray B).

Lemma px_amap (f : A → B) a i j : px (amap f a) i j = f <$> px a i j.
Proof.
  unfold px, amap; simpl. rewrite list_lookup_fmap.
  destruct (rows a !! i) as [row|]; simpl; [|done].
  by rewrite list_lookup_fmap.
Qed.

Lemma px_azip (f : A → B → C) a b i j :
  px (azip f a b) i j = (x ← px a i j; y ← px b i j; Some (f x y)).
Proof.
  unfold px, azip; simpl. rewrite lookup_zip_with.
  destruct (rows a !! i) as [ra|], (rows b !! i) as [rb|]; simpl; try done.
  - by rewrite lookup_zip_with.
  - by destruct (ra !! j).
Qed.

Lemma px_tabulate (f : nat → nat → A) n m i j :
  i < n → j < m → px (tabulate n m f) i j = Some (f i j).
Proof.
  intros Hi Hj. unfold px, tabulate; simpl.
  rewrite list_lookup_fmap, lookup_seq_lt by done; simpl.
  by rewrite list_lookup_fmap, lookup_seq_lt by done.
Qed.

Lemma wf_tabulate (f : nat → nat → A) n m : wf (tabulate n m f).
Proof.
  split; simpl.
  - by rewrite length_fmap, length_seq.
  - apply Forall_fmap, Forall_forall. intros i _; simpl.
    by rewrite length_fmap, length_seq.
Qed.

Lemma wf_amap (f : A → B) a : wf a → wf (amap f a).
Proof.
  intros [Hn Hm]. split; simpl.
  - by rewrite length_fmap.
  - apply Forall_fmap. eapply Forall_impl; [done|].
    intros row Hrow; simpl. by rewrite length_fmap.
Qed.

Lemma wf_azip (f : A → B → C) a b :
  shape a = shape b → wf a → wf b → wf (azip f a b).
Proof.
  intros Hs [Hn Hm] [Hn' Hm']. rewrite <- Hs in Hn', Hm'. split; simpl.
  - rewrite length_zip_with. lia.
  - apply Forall_forall. intros row Hrow.
    apply list_elem_of_lookup in Hrow as [i Hi].
    rewrite lookup_zip_with in Hi.
    destruct (rows a !! i) as [ra|] eqn:Ha; simpl in Hi; [|done].
    destruct (rows b !! i) as [rb|] eqn:Hb; simpl in Hi; [|done].
    injection Hi as <-. rewrite length_zip_with.
    rewrite Forall_forall in Hm. rewrite Forall_forall in Hm'.
    rewrite (Hm ra), (Hm' rb); [lia | |];
      apply list_elem_of_lookup; eauto.
Qed.

End arrays.

(** ** The NumPy operations *)

Arguments np_zeros : simpl never.
Arguments nbytes : simpl never.

Lemma np_zeros_Ok (n m : Z) :
  (0 ≤ n)%Z → (0 ≤ m)%Z → (nbytes (n, m) ≤ NPY_MAX_INTP)%Z →
  np_zeros (n, m) = Ok (zeros (Z.to_nat n) (Z.to_nat m)).
Proof.
  intros Hn Hm Hb. unfold np_zeros.
  destruct (Z.ltb_spec n 0); [lia|]. destruct (Z.ltb_spec m 0); [lia|].
  cbn [orb]. by destruct (Z.ltb_spec NPY_MAX_INTP (nbytes (n, m))); [lia|].
Qed.

Lemma np_zeros_Raise (n m : Z) :
  (n < 0 ∨ m < 0 ∨ NPY_MAX_INTP < nbytes (n, m))%Z →
  np_zeros (n, m) = Raise ValueError.
Proof.
  intros H. unfold np_zeros.
  destruct (Z.ltb_spec n 0); [done|]. destruct (Z.ltb_spec m 0); [done|].
  cbn [orb]. by destruct (Z.ltb_spec NPY_MAX_INTP (nbytes (n, m))); [|lia].
Qed.

(** What [np.zeros] does is decided by the size alone. *)
Lemma np_zeros_cases (n m : Z) :
  (np_zeros (n, m) = Ok (zeros (Z.to_nat n) (Z.to_nat m)) ∧
   (0 ≤ n)%Z ∧ (0 ≤ m)%Z ∧ (nbytes (n, m) ≤ NPY_MAX_INTP)%Z) ∨
  (np_zeros (n, m) = Raise ValueError ∧
   (n < 0 ∨ m < 0 ∨ NPY_MAX_INTP < nbytes (n, m))%Z).
Proof.
  destruct (Z.ltb_spec n 0) as [Hn|Hn];
    [right; split; [apply np_zeros_Raise|]; lia|].
  destruct (Z.ltb_spec m 0) as [Hm|Hm];
    [right; split; [apply np_zeros_Raise|]; lia|].
  destruct (Z.ltb_spec NPY_MAX_INTP (nbytes (n, m))) as [Hb|Hb];
    [right; split; [apply np_zeros_Raise|]; lia|].
  left. split; [by apply np_zeros_Ok|done].
Qed.

Lemma np_zeros_Ok_inv (n m : Z) z :
  np_zeros (n, m) = Ok z →
  z = zeros (Z.to_nat n) (Z.to_nat m) ∧
  (0 ≤ n)%Z ∧ (0 ≤ m)%Z ∧ (nbytes (n, m) ≤ NPY_MAX_INTP)%Z.
Proof.
  destruct (np_zeros_cases n m) as [[-> H]|[-> _]]; [|done].
  by intros [= <-].
Qed.

Lemma wf_zeros n m : wf (zeros n m).
Proof.
  split; simpl; [by rewrite length_replicate|].
  apply Forall_replicate. by rewrite length_replicate.
Qed.

Lemma px_zeros n m i j : i < n → j < m → px (zeros n m) i j = Some 0%Q.
Proof.
  intros Hi Hj. unfold px, zeros; simpl.
  rewrite lookup_replicate_2 by done; simpl.
  by rewrite lookup_replicate_2.
Qed.

Lemma np_linspace_range (n : Z) :
  (0 ≤ n)%Z →
  ∃ x, np_linspace 0 (inject_Z (n - 1)) n = Ok x ∧
       length x = Z.to_nat n ∧
       ∀ k q, x !! k = Some q → (q == inject_Z (Z.of_nat k))%Q.
Proof.
  intros Hn. unfold np_linspace. destruct (Z.ltb_spec n 0); [lia|].
  eexists; split; [done|]. split; [by rewrite length_fmap, length_seq|].
  intros k q. rewrite list_lookup_fmap.
  destruct (seq 0 (Z.to_nat n) !! k) as [k'|] eqn:Hk; simpl; [|done].
  apply lookup_seq in Hk as [-> Hk]. intros [= <-]; simpl.
  destruct (decide (n - 1 = 0)%Z) as [E|E].
  - assert (k = 0) as -> by lia. simpl. ring.
  - assert (¬ (inject_Z (n - 1) == 0)%Q).
    { unfold Qeq; simpl. lia. }
    field. done.
Qed.

Lemma pixel_grid_Ok (n m : Z) :
  (0 ≤ n)%Z → (0 ≤ m)%Z →
  ∃ xx yy,
    pixel_grid n m = Ok (xx, yy) ∧
    shape xx = (Z.to_nat m, Z.to_nat n) ∧
    shape yy = (Z.to_nat m, Z.to_nat n) ∧
    ∀ i j, i < Z.to_nat m → j < Z.to_nat n →
      ∃ x y, px xx i j = Some x ∧ px yy i j = Some y ∧
             (x == inject_Z (Z.of_nat j))%Q ∧ (y == inject_Z (Z.of_nat i))%Q.
Proof.
  intros Hx Hy. unfold pixel_grid.
  destruct (np_linspace_range _ Hx) as (x & -> & Lx & Ex).
  destruct (np_linspace_range _ Hy) as (y & -> & Ly & Ey). simpl.
  eexists _, _. split; [done|]. simpl. rewrite Lx, Ly. do 2 (split; [done|]).
  intros i j Hi Hj.
  destruct (lookup_lt_is_Some_2 y i) as [yi Hyi]; [lia|].
  destruct (lookup_lt_is_Some_2 x j) as [xj Hxj]; [lia|].
  exists xj, yi. unfold px; simpl.
  rewrite !list_lookup_fmap, Hyi; simpl.
  rewrite list_lookup_fmap, Hxj; simpl. repeat split; auto.
Qed.

Lemma disk_mask_Ok xx yy xc yc r :
  shape xx = shape yy → disk_mask xx yy xc yc r = Ok (mask_of xx yy xc yc r).
Proof.
  intros Hs. unfold disk_mask, np_add; simpl.
  by destruct (decide (shape xx = shape yy)).
Qed.

Lemma px_mask_of xx yy xc yc r i j x y :
  px xx i j = Some x → px yy i j = Some y →
  px (mask_of xx yy xc yc r) i j
  = Some (Qlt_bool ((x - xc) ^ 2 + (y - yc) ^ 2 - r ^ 2)%Q 0).
Proof.
  intros Hx Hy. unfold mask_of, lt_scalar, sub_scalar, np_power.
  rewrite !px_amap, px_azip, !px_amap, Hx, Hy. done.
Qed.

Lemma mask_test_inside xc yc r x y :
  Qlt_bool ((x - xc) ^ 2 + (y - yc) ^ 2 - r ^ 2)%Q 0 = true
  ↔ inside xc yc r x y.
Proof. rewrite Qlt_bool_iff. unfold inside. split; intros; lra. Qed.

#[export] Instance inside_proper :
  Proper (Qeq ==> Qeq ==> Qeq ==> Qeq ==> Qeq ==> iff) inside.
Proof.
  intros ?? H1 ?? H2 ?? H3 ?? H4 ?? H5. unfold inside.
  by rewrite H1, H2, H3, H4, H5.
Qed.

(** ** From the store to values *)

Lemma insert2_id (h : heap) l1 l2 A T :
  h !! l1 = Some A → h !! l2 = Some T → <[l2 := T]> (<[l1 := A]> h) = h.
Proof.
  intros H1 H2. rewrite (insert_id h l1 A H1). by apply insert_id.
Qed.

Lemma insert2_insert2 (h : heap) l1 l2 A T A' T' :
  l1 ≠ l2 →
  <[l2 := T']> (<[l1 := A']> (<[l2 := T]> (<[l1 := A]> h)))
  = <[l2 := T']> (<[l1 := A']> h).
Proof.
  intros Hne. apply map_eq. intros k. rewrite !lookup_insert.
  repeat case_decide; congruence.
Qed.

Lemma holds_insert2 self (h : heap) A T :
  img self ≠ img_truth self →
  holds self (<[img_truth self := T]> (<[img self := A]> h)) A T.
Proof.
  intros Hne. split_and!; [|by rewrite lookup_insert_eq|done].
  rewrite lookup_insert_ne by done. by rewrite lookup_insert_eq.
Qed.

Lemma paint_run self h A T xx yy xc yc r v :
  holds self h A T →
  paint self xx yy xc yc r v h =
  match paint_values A T xx yy xc yc r v with
  | Ok (A', T') => Ok (tt, <[img_truth self := T']> (<[img self := A']> h))
  | Raise e => Raise e
  end.
Proof.
  intros (HA & HT & Hne). unfold paint, paint_values, mbind, M_bind.
  destruct (disk_mask xx yy xc yc r) as [mask|e]; simpl; [|done].
  unfold load. rewrite HA.
  destruct (setitem_mask A mask v) as [A'|e]; simpl; [|done].
  rewrite lookup_insert_ne, HT by done.
  by destruct (setitem_mask T mask 1) as [T'|e].
Qed.

Lemma draw_disk_run self d h A T xx yy n :
  holds self h A T →
  draw_disk self d xx yy n h =
  match draw_disk_values (config_of self) d xx yy (A, T) n with
  | Ok (A', T') => Ok (tt, <[img_truth self := T']> (<[img self := A']> h))
  | Raise e => Raise e
  end.
Proof.
  intros Hh. unfold draw_disk, draw_disk_values, mbind, M_bind; simpl.
  destruct (np_random_normal _ _ _) as [r|e]; simpl; [|done].
  by apply paint_run.
Qed.

Lemma for_each_run self d xx yy ns : ∀ h A T,
  holds self h A T →
  for_each ns (draw_disk self d xx yy) h =
  match foldM (draw_disk_values (config_of self) d xx yy) (A, T) ns with
  | Ok (A', T') => Ok (tt, <[img_truth self := T']> (<[img self := A']> h))
  | Raise e => Raise e
  end.
Proof.
  induction ns as [|n ns IH]; intros h A T Hh; simpl.
  - destruct Hh as (HA & HT & _). by rewrite insert2_id.
  - unfold mbind at 1, M_bind. rewrite (draw_disk_run _ _ _ A T) by done.
    destruct (draw_disk_values _ _ _ _ _ _) as [[A1 T1]|e]; simpl; [|done].
    destruct Hh as (_ & _ & Hne).
    rewrite (IH _ A1 T1) by by apply holds_insert2.
    destruct (foldM _ _ _) as [[A' T']|e]; [|done].
    by rewrite insert2_insert2.
Qed.

(** [generate] on an instance whose two cells hold [A] and [T] computes
    [generate_values] on [A] and [T]: it raises when that raises, and
    otherwise paints the disks into both arrays where they are, puts the
    clipped noisy image in a new array and makes [self.img] point to
    it. *)
Lemma generate_run self d h A T :
  holds self h A T →
  generate self d h =
  match generate_values (config_of self) d A T with
  | Ok (k, A1, A2, T1) =>
      let h1 := <[img_truth self := T1]> (<[img self := A1]> h) in
      let l := fresh (dom h1) in
      Ok ((set_img (set_ndisks self k) l, (l, img_truth self)),
          <[l := A2]> h1)
  | Raise e => Raise e
  end.
Proof.
  intros Hh. unfold generate, generate_values, mbind, M_bind; simpl.
  destruct (pixel_grid _ _) as [[xx yy]|e]; simpl; [|done].
  destruct (np_random_poisson _ _) as [k|e]; simpl; [|done].
  unfold for_range.
  rewrite (for_each_run (set_ndisks self k) _ _ _ _ _ A T) by done.
  change (config_of (set_ndisks self k)) with (config_of self); simpl.
  destruct (foldM _ _ _) as [[A1 T1]|e]; simpl; [|done].
  destruct (np_random_randn _ _ _) as [z|e]; simpl; [|done].
  destruct Hh as (_ & _ & Hne).
  unfold load. rewrite lookup_insert_ne, lookup_insert_eq by done.
  by destruct (np_add _ _) as [s|e].
Qed.

(** ** The constructor *)

Lemma init_run (c : GeneratorConfig) (h : heap) :
  construct c h =
  match np_zeros (c_size c) with
  | Ok z =>
      let l1 := fresh (dom h) in
      let h1 := <[l1 := z]> h in
      let l2 := fresh (dom h1) in
      Ok ({| nx := (c_size c).1; ny := (c_size c).2; theta := c_theta c;
             rmean := c_rmean c; rstd := c_rstd c;
             vmin := c_vmin c; vmax := c_vmax c; sigma := c_sigma c;
             img := l1; img_truth := l2; ndisks := None |},
          <[l2 := z]> h1)
  | Raise e => Raise e
  end.
Proof.
  unfold construct, __init__. destruct (c_size c) as [n m]; simpl.
  unfold mbind, M_bind; simpl.
  by destruct (np_zeros (n, m)) as [z|e].
Qed.

Lemma fresh_not_in_dom (h : heap) : h !! fresh (dom h) = None.
Proof. apply not_elem_of_dom, is_fresh. Qed.

Lemma fresh_ne (h : heap) l : is_Some (h !! l) → l ≠ fresh (dom h).
Proof. intros [a Ha] ->. by rewrite fresh_not_in_dom in Ha. Qed.

Lemma construct_inv (c : GeneratorConfig) (h : heap) self h' :
  construct c h = Ok (self, h') →
  (0 ≤ (c_size c).1)%Z ∧ (0 ≤ (c_size c).2)%Z ∧
  config_of self = c ∧ ndisks self = None ∧
  holds self h' (zeros (Z.to_nat (nx self)) (Z.to_nat (ny self)))
                (zeros (Z.to_nat (nx self)) (Z.to_nat (ny self))) ∧
  h !! img self = None ∧ h !! img_truth self = None ∧
  (∀ l, is_Some (h !! l) → h' !! l = h !! l).
Proof.
  rewrite init_run. destruct c as [[n m] θ rm rs vlo vhi σ]; simpl.
  destruct (np_zeros_cases n m) as [(-> & Hn & Hm & _)|[-> _]]; [|done].
  simpl.
  set (l1 := fresh (dom h)).
  set (l2 := fresh (dom (<[l1 := _]> h))).
  intros [= <- <-]; simpl.
  assert (l1 ≠ l2) as Hne.
  { apply fresh_ne. rewrite lookup_insert_eq. eauto. }
  assert (h !! l1 = None) as H1 by apply fresh_not_in_dom.
  assert (h !! l2 = None) as H2.
  { pose proof (fresh_not_in_dom (<[l1 := zeros (Z.to_nat n) (Z.to_nat m)]> h))
      as H. fold l2 in H. by rewrite lookup_insert_ne in H. }
  split_and!; try done.
  - split_and!; simpl; [|by rewrite lookup_insert_eq|done].
    rewrite lookup_insert_ne by done. by rewrite lookup_insert_eq.
  - intros l [a Ha]. rewrite !lookup_insert_ne; [done| |]; congruence.
Qed.

Lemma construct_Raise_inv (c : GeneratorConfig) (h : heap) e :
  construct c h = Raise e →
  e = ValueError ∧
  ((c_size c).1 < 0 ∨ (c_size c).2 < 0 ∨ NPY_MAX_INTP < nbytes (c_size c))%Z.
Proof.
  rewrite init_run. destruct c as [[n m] θ rm rs vlo vhi σ]; simpl.
  destruct (np_zeros_cases n m) as [(-> & _)|[-> H]]; [done|].
  by intros [= <-].
Qed.

(** Construction and [np.zeros] fail together. *)
Lemma construct_Raise_iff (c : GeneratorConfig) (h : heap) e :
  construct c h = Raise e ↔ np_zeros (c_size c) = Raise e.
Proof.
  rewrite init_run.
  destruct (np_zeros (c_size c)) as [z|e']; cbv beta iota zeta;
    [|split; intros [= ->]; reflexivity].
  split; intros H; discriminate H.
Qed.

Lemma construct_size (c : GeneratorConfig) (h : heap) self h' :
  construct c h = Ok (self, h') →
  (nbytes (c_size c) ≤ NPY_MAX_INTP)%Z.
Proof.
  rewrite init_run. destruct (c_size c) as [n m].
  by destruct (np_zeros_cases n m) as [(-> & _ & _ & H)|[-> _]].
Qed.

(** ** One disk, then all of them *)

Lemma setitem_mask_Ok A mask v :
  shape mask = shape A →
  setitem_mask A mask v = Ok (azip (λ q (b : bool), if b then v else q) A mask).
Proof. intros H. unfold setitem_mask. by rewrite decide_True. Qed.

Lemma setitem_mask_Raise A mask v :
  shape mask ≠ shape A → setitem_mask A mask v = Raise IndexError.
Proof. intros H. unfold setitem_mask. by rewrite decide_False. Qed.

Lemma shape_mask_of xx yy xc yc r : shape (mask_of xx yy xc yc r) = shape xx.
Proof. reflexivity. Qed.

Lemma paint_values_Ok A T xx yy xc yc r v :
  shape xx = shape yy → shape A = shape xx → shape T = shape xx →
  paint_values A T xx yy xc yc r v =
  Ok (azip (λ q (b : bool), if b then v else q) A (mask_of xx yy xc yc r),
      azip (λ q (b : bool), if b then 1%Q else q) T (mask_of xx yy xc yc r)).
Proof.
  intros Hxy HA HT. unfold paint_values. rewrite disk_mask_Ok by done; simpl.
  rewrite (setitem_mask_Ok A) by (by rewrite shape_mask_of); simpl.
  rewrite (setitem_mask_Ok T); [reflexivity|]. by rewrite shape_mask_of.
Qed.

Lemma paint_values_Raise A T xx yy xc yc r v :
  shape xx = shape yy → shape A ≠ shape xx →
  paint_values A T xx yy xc yc r v = Raise IndexError.
Proof.
  intros Hxy HA. unfold paint_values. rewrite disk_mask_Ok by done; simpl.
  rewrite (setitem_mask_Raise A); [reflexivity|]. rewrite shape_mask_of. auto.
Qed.

Lemma np_random_normal_Ok z m s :
  (0 <= s)%Q → np_random_normal z m s = Ok (m + s * z)%Q.
Proof.
  intros H%Qlt_bool_false. unfold np_random_normal. by rewrite H.
Qed.

Lemma np_random_poisson_Ok d lam :
  (0 <= lam)%Q → (lam <= POISSON_LAM_MAX)%Q →
  np_random_poisson d lam = Ok (poisson_k d).
Proof.
  intros H%Qlt_bool_false H'%Qlt_bool_false. unfold np_random_poisson.
  by rewrite H, H'.
Qed.

Lemma np_random_poisson_Raise d lam :
  (lam < 0 ∨ POISSON_LAM_MAX < lam)%Q →
  np_random_poisson d lam = Raise ValueError.
Proof.
  unfold np_random_poisson. intros [H%Qlt_bool_iff|H%Qlt_bool_iff].
  - by rewrite H.
  - rewrite H. by destruct (Qlt_bool lam 0).
Qed.

(** What [np.random.poisson] does is decided by the rate alone. *)
Lemma np_random_poisson_cases d lam :
  (np_random_poisson d lam = Ok (poisson_k d) ∧
   (0 <= lam)%Q ∧ (lam <= POISSON_LAM_MAX)%Q) ∨
  (np_random_poisson d lam = Raise ValueError ∧
   (lam < 0 ∨ POISSON_LAM_MAX < lam)%Q).
Proof.
  destruct (Qlt_le_dec lam 0) as [H|H];
    [right; split; [apply np_random_poisson_Raise|]; by left|].
  destruct (Qlt_le_dec POISSON_LAM_MAX lam) as [H'|H'];
    [right; split; [apply np_random_poisson_Raise|]; by right|].
  left. split; [by apply np_random_poisson_Ok|done].
Qed.

Lemma draw_disk_values_Ok c d xx yy A T n :
  (0 <= c_rstd c)%Q →
  shape xx = shape yy → shape A = shape xx → shape T = shape xx →
  draw_disk_values c d xx yy (A, T) n =
  paint_values A T xx yy (disk_xc c d n) (disk_yc c d n) (disk_r c d n)
               (disk_v c d n).
Proof.
  intros Hs Hxy HA HT. unfold draw_disk_values.
  by rewrite np_random_normal_Ok.
Qed.

Lemma foldM_draw_disks c d xx yy ns :
  (0 <= c_rstd c)%Q → shape xx = shape yy →
  ∀ A T, shape A = shape xx → shape T = shape xx →
  ∃ A' T',
    foldM (draw_disk_values c d xx yy) (A, T) ns = Ok (A', T') ∧
    shape A' = shape xx ∧ shape T' = shape xx ∧
    ∀ i j x y, px xx i j = Some x → px yy i j = Some y →
      px A' i j = px_image c d x y ns <$> px A i j ∧
      px T' i j = px_mask c d x y ns <$> px T i j.
Proof.
  intros Hs Hxy. induction ns as [|n ns IH]; intros A T HA HT.
  - exists A, T. split_and!; try done. intros i j x y _ _.
    unfold px_image, px_mask; simpl. by rewrite !option_fmap_id.
  - cbn [foldM]. rewrite draw_disk_values_Ok by done.
    rewrite paint_values_Ok by done. cbn [mbind result_bind].
    edestruct IH as (A' & T' & -> & HA' & HT' & Hpx);
      [| |exists A', T'; split_and!; try done].
    1-2: done.
    intros i j x y Hx Hy.
    destruct (Hpx i j x y Hx Hy) as [-> ->].
    rewrite !px_azip, (px_mask_of _ _ _ _ _ _ _ x y) by done.
    split; [by destruct (px A i j)|by destruct (px T i j)].
Qed.

(** ** One call on values *)

Lemma np_random_randn_Ok d (n m : Z) :
  (0 ≤ n)%Z → (0 ≤ m)%Z →
  np_random_randn d n m = Ok (tabulate (Z.to_nat n) (Z.to_nat m) (randn_z d)).
Proof.
  intros Hn Hm. unfold np_random_randn.
  destruct (Z.ltb_spec n 0); [lia|]. by destruct (Z.ltb_spec m 0); [lia|].
Qed.

Lemma np_add_Ok a b : shape a = shape b → np_add a b = Ok (azip Qplus a b).
Proof. intros H. unfold np_add. by rewrite decide_True. Qed.

(** Lines 147-148 on an image of the declared shape. *)
Lemma noise_and_clip c d A1 (n m : Z) :
  c_size c = (n, m) → (0 ≤ n)%Z → (0 ≤ m)%Z →
  shape A1 = (Z.to_nat n, Z.to_nat m) →
  ∃ A2,
    (noise ← mul_scalar (c_sigma c)
               <$> np_random_randn d (c_size c).1 (c_size c).2;
     s ← np_add A1 noise; mret (np_clip s 0 255)) = Ok A2 ∧
    shape A2 = shape A1 ∧
    ∀ i j, i < Z.to_nat n → j < Z.to_nat m →
      px A2 i j
      = (λ q, clip 0 255 (q + c_sigma c * randn_z d i j)%Q) <$> px A1 i j.
Proof.
  intros -> Hn Hm HA1. simpl. rewrite np_random_randn_Ok by done. simpl.
  rewrite np_add_Ok by done. simpl. eexists. split; [done|].
  split; [done|]. intros i j Hi Hj.
  unfold np_clip, mul_scalar. rewrite px_amap, px_azip, px_amap.
  rewrite px_tabulate by done. simpl. by destruct (px A1 i j).
Qed.

Lemma hit_proper c d n x x' y y' :
  (x == x')%Q → (y == y')%Q → hit c d n x y = hit c d n x' y'.
Proof. intros Hx Hy. unfold hit. by rewrite Hx, Hy. Qed.

Lemma px_image_proper c d x x' y y' ns q :
  (x == x')%Q → (y == y')%Q → px_image c d x y ns q = px_image c d x' y' ns q.
Proof.
  intros Hx Hy. unfold px_image. revert q.
  induction ns as [|n ns IH]; intros q; simpl; [done|].
  by rewrite IH, (hit_proper c d n x x' y y').
Qed.

Lemma px_mask_proper c d x x' y y' ns q :
  (x == x')%Q → (y == y')%Q → px_mask c d x y ns q = px_mask c d x' y' ns q.
Proof.
  intros Hx Hy. unfold px_mask. revert q.
  induction ns as [|n ns IH]; intros q; simpl; [done|].
  by rewrite IH, (hit_proper c d n x x' y y').
Qed.

(** A call on a grid with as many rows as columns: nothing raises, the
    shapes are kept, and every pixel goes through the loop over the
    disks and then through the noise and the clipping. *)
Lemma generate_values_square c d A T (n : Z) :
  c_size c = (n, n) → (0 ≤ n)%Z →
  (0 <= c_theta c)%Q → (c_theta c <= POISSON_LAM_MAX)%Q →
  (0 <= c_rstd c)%Q →
  shape A = (Z.to_nat n, Z.to_nat n) → shape T = (Z.to_nat n, Z.to_nat n) →
  ∃ A1 A2 T1,
    generate_values c d A T = Ok (poisson_k d, A1, A2, T1) ∧
    shape A1 = shape A ∧ shape A2 = shape A ∧ shape T1 = shape T ∧
    ∀ i j, i < Z.to_nat n → j < Z.to_nat n →
      let x := inject_Z (Z.of_nat j) in
      let y := inject_Z (Z.of_nat i) in
      px A1 i j = px_image c d x y (seq 0 (poisson_k d)) <$> px A i j ∧
      px T1 i j = px_mask c d x y (seq 0 (poisson_k d)) <$> px T i j ∧
      px A2 i j
      = (λ q, clip 0 255 (q + c_sigma c * randn_z d i j)%Q) <$> px A1 i j.
Proof.
  intros Hc Hn Hθ Hθ' Hs HA HT. unfold generate_values. rewrite Hc; simpl.
  destruct (pixel_grid_Ok n n Hn Hn) as (xx & yy & -> & Hxx & Hyy & Hg).
  simpl. rewrite np_random_poisson_Ok by done. simpl.
  destruct (foldM_draw_disks c d xx yy (seq 0 (poisson_k d)) Hs) with A T
    as (A1 & T1 & -> & HA1 & HT1 & Hpx); [congruence..|].
  simpl.
  destruct (noise_and_clip c d A1 n n Hc Hn Hn) as (A2 & E & HA2 & Hz);
    [congruence|].
  rewrite Hc in E; simpl in E.
  destruct (mul_scalar _ <$> _) as [noise|e]; simpl in *; [|done].
  destruct (np_add A1 noise) as [s|e]; simpl in *; [|done].
  injection E as <-.
  eexists _, _, _. split; [done|]. split_and!; [congruence..|].
  intros i j Hi Hj. cbv zeta.
  destruct (Hg i j Hi Hj) as (x' & y' & Hx & Hy & Ex & Ey).
  destruct (Hpx i j x' y' Hx Hy) as [E1 E2].
  split_and!; [rewrite E1|rewrite E2|by apply Hz].
  - destruct (px A i j); simpl; [|done]. f_equal. by apply px_image_proper.
  - destruct (px T i j); simpl; [|done]. f_equal. by apply px_mask_proper.
Qed.

Lemma generate_values_nonsquare c d A T (n m : Z) :
  c_size c = (n, m) → (0 ≤ n)%Z → (0 ≤ m)%Z → n ≠ m →
  (0 <= c_theta c)%Q → (c_theta c <= POISSON_LAM_MAX)%Q →
  (0 <= c_rstd c)%Q → 1 ≤ poisson_k d →
  shape A = (Z.to_nat n, Z.to_nat m) →
  generate_values c d A T = Raise IndexError.
Proof.
  intros Hc Hn Hm Hnm Hθ Hθ' Hs Hk HA. unfold generate_values. rewrite Hc; simpl.
  destruct (pixel_grid_Ok n m Hn Hm) as (xx & yy & -> & Hxx & Hyy & _).
  simpl. rewrite np_random_poisson_Ok by done. simpl.
  destruct (poisson_k d) as [|k]; [lia|]. cbn [seq foldM].
  unfold draw_disk_values. rewrite np_random_normal_Ok by done. simpl.
  rewrite paint_values_Raise; [done|congruence|].
  rewrite HA, Hxx. intros [= E1 E2]. lia.
Qed.

Lemma Qsquare_opp (r : Q) : ((- r) ^ 2)%Q = (r ^ 2)%Q.
Proof.
  destruct r as [p q]. unfold Qpower, Qpower_positive, Qopp; simpl.
  unfold Qmult; simpl. f_equal. lia.
Qed.

Lemma Qsquare_nonneg (q : Q) : (0 <= q ^ 2)%Q.
Proof. change (0 <= q * q)%Q. nra. Qed.

(** ** Runs of calls *)

(** The state of an instance and of the store after a call that
    returned. *)
Lemma generate_run_Ok self d h A T k A1 A2 T1 :
  holds self h A T →
  generate_values (config_of self) d A T = Ok (k, A1, A2, T1) →
  ∃ self' h',
    generate self d h = Ok ((self', (img self', img_truth self')), h') ∧
    config_of self' = config_of self ∧
    img_truth self' = img_truth self ∧
    holds self' h' A2 T1 ∧
    h !! img self' = None ∧
    h' !! img self = Some A1 ∧
    (∀ l, l ≠ img self → l ≠ img_truth self → l ≠ img self' →
          h' !! l = h !! l).
Proof.
  intros Hh E. rewrite (generate_run _ _ _ _ _ Hh), E.
  destruct Hh as (HA & HT & Hne).
  set (h1 := <[img_truth self := T1]> (<[img self := A1]> h)).
  set (l := fresh (dom h1)).
  assert (h1 !! l = None) as Hl by apply fresh_not_in_dom.
  assert (l ≠ img_truth self) as Hl1.
  { intros ->. unfold h1 in Hl. by rewrite lookup_insert_eq in Hl. }
  assert (l ≠ img self) as Hl2.
  { intros ->. unfold h1 in Hl.
    rewrite lookup_insert_ne in Hl by done. by rewrite lookup_insert_eq in Hl. }
  exists (set_img (set_ndisks self k) l), (<[l := A2]> h1).
  split; [reflexivity|]. simpl. split_and!; try done.
  - split_and!; simpl; [by rewrite lookup_insert_eq| |done].
    rewrite lookup_insert_ne by done. unfold h1. by rewrite lookup_insert_eq.
  - unfold h1 in Hl. by rewrite !lookup_insert_ne in Hl by done.
  - rewrite lookup_insert_ne by done. unfold h1.
    rewrite lookup_insert_ne by done. by rewrite lookup_insert_eq.
  - intros l' H1 H2 H3. unfold h1. by rewrite !lookup_insert_ne by done.
Qed.

Lemma generate_run_Raise self d h A T e :
  holds self h A T →
  generate_values (config_of self) d A T = Raise e →
  generate self d h = Raise e.
Proof. intros Hh E. by rewrite (generate_run _ _ _ _ _ Hh), E. Qed.

Lemma deref_holds self h A T :
  holds self h A T → deref (img self, img_truth self) h = Ok ((A, T), h).
Proof.
  intros (HA & HT & _). unfold deref, mbind, M_bind, load; simpl.
  by rewrite HA, HT.
Qed.

(** What the caller sees over a run of calls depends on the store only
    through the contents of the two cells. *)
Lemma calls_run ds : ∀ self h A T,
  holds self h A T →
  fst <$> calls self ds h = calls_values (config_of self) ds A T.
Proof.
  induction ds as [|d ds IH]; intros self h A T Hh; [done|].
  cbn [calls calls_values]. unfold mbind at 1, M_bind.
  destruct (generate_values (config_of self) d A T)
    as [[[[k A1] A2] T1]|e] eqn:E.
  - destruct (generate_run_Ok _ _ _ _ _ _ _ _ _ Hh E)
      as (self' & h' & -> & Hc & _ & Hh' & _).
    unfold mbind at 1, M_bind. rewrite (deref_holds _ _ _ _ Hh').
    cbn [mbind result_bind]. rewrite <- Hc, <- (IH self' h' A2 T1 Hh').
    unfold mbind, M_bind. by destruct (calls self' ds h') as [[vs h'']|e].
  - by rewrite (generate_run_Raise _ _ _ _ _ _ Hh E).
Qed.

(** A fresh interpreter starts its run from two all-zero arrays. *)
Lemma session_values c ds :
  session c ds =
  match np_zeros (c_size c) with
  | Ok z => calls_values c ds z z
  | Raise e => Raise e
  end.
Proof.
  unfold session. unfold mbind at 1, M_bind.
  destruct (construct c ∅) as [[self h]|e] eqn:E.
  - pose proof (construct_size _ _ _ _ E) as Hb.
    apply construct_inv in E as (Hn & Hm & Hc & _ & Hh & _).
    rewrite (calls_run ds self h _ _ Hh), Hc.
    assert (c_size c = (nx self, ny self)) as Hsz by by rewrite <- Hc.
    rewrite Hsz in *. simpl in *. by rewrite np_zeros_Ok.
  - rewrite init_run in E.
    destruct (np_zeros (c_size c)); cbv zeta in E; by simplify_eq.
Qed.

(** ** Two instances in one store *)

Lemma holds_frame self (h h' : heap) A T :
  holds self h A T →
  h' !! img self = h !! img self →
  h' !! img_truth self = h !! img_truth self →
  holds self h' A T.
Proof. intros (HA & HT & Hne) E1 E2. split_and!; congruence. Qed.

Lemma ne_by_lookup (h : heap) l l' a :
  h !! l = Some a → h !! l' = None → l ≠ l'.
Proof. congruence. Qed.

(** Twins stay twins: a call on one instance leaves the cells of the
    other alone, and the array it allocates is new to both. *)
Lemma calls2_run ds : ∀ a b h A T,
  twins a b h A T →
  fst <$> calls2 a b ds h
  = twice <$> calls_values (config_of a) ds A T.
Proof.
  induction ds as [|d ds IH]; intros a b h A T Htw; [done|].
  destruct Htw as (Hc & Ha & Hb & N1 & N2 & N3 & N4).
  cbn [calls2 calls_values]. unfold mbind at 1, M_bind.
  destruct (generate_values (config_of a) d A T)
    as [[[[k A1] A2] T1]|e] eqn:E;
    [|by rewrite (generate_run_Raise _ _ _ _ _ _ Ha E)].
  destruct (generate_run_Ok _ _ _ _ _ _ _ _ _ Ha E)
    as (a' & h1 & -> & Hca & Hta & Ha' & Fa & _ & Fra).
  unfold mbind at 1, M_bind. rewrite (deref_holds _ _ _ _ Ha').
  unfold mbind at 1, M_bind.
  pose proof Hb as (HbA & HbT & Nb).
  assert (holds b h1 A T) as Hb1.
  { apply (holds_frame _ h); [done| |]; apply Fra; try done.
    - by apply (ne_by_lookup h _ _ A).
    - by apply (ne_by_lookup h _ _ T). }
  rewrite Hc in E.
  destruct (generate_run_Ok _ _ _ _ _ _ _ _ _ Hb1 E)
    as (b' & h2 & -> & Hcb & Htb & Hb' & Fb & _ & Frb).
  unfold mbind at 1, M_bind. rewrite (deref_holds _ _ _ _ Hb').
  pose proof Ha' as (Ha'A & Ha'T & Na').
  assert (img a' ≠ img b') as N5 by by apply (ne_by_lookup h1 _ _ A2).
  assert (img_truth a' ≠ img b') as N6 by by apply (ne_by_lookup h1 _ _ T1).
  assert (img a' ≠ img b) as N7.
  { apply not_eq_sym. by apply (ne_by_lookup h _ _ A). }
  assert (img a' ≠ img_truth b) as N8.
  { apply not_eq_sym. by apply (ne_by_lookup h _ _ T). }
  assert (twins a' b' h2 A2 T1) as Htw'.
  { split_and!; try congruence.
    apply (holds_frame _ h1); [done| |]; apply Frb; congruence. }
  specialize (IH a' b' h2 A2 T1 Htw').
  unfold mbind at 1, M_bind. cbn [mbind result_bind].
  rewrite <- Hca.
  destruct (calls2 a' b' ds h2) as [[vs h3]|e1],
    (calls_values (config_of a') ds A2 T1) as [ws|e2];
    simpl in IH; by simplify_eq.
Qed.

(** ** Shapes are kept

    Whenever a call returns, both arrays it leaves have the shape of the
    arrays it found, and their rows agree with that shape. *)

Lemma pixel_grid_wf (n m : Z) xx yy :
  pixel_grid n m = Ok (xx, yy) → wf xx ∧ wf yy ∧ shape xx = shape yy.
Proof.
  unfold pixel_grid.
  destruct (np_linspace _ _ n) as [x|]; simpl; [|done].
  destruct (np_linspace _ _ m) as [y|]; simpl; [|done].
  intros [= <- <-]. split_and!; [| |done].
  - split; simpl; [by rewrite length_fmap|]. by apply Forall_fmap, Forall_true.
  - split; simpl; [by rewrite length_fmap|].
    apply Forall_fmap, Forall_true. intros yi; simpl. by rewrite length_fmap.
Qed.

Lemma wf_mask_of xx yy xc yc r :
  shape xx = shape yy → wf xx → wf yy → wf (mask_of xx yy xc yc r).
Proof.
  intros Hs Hx Hy. unfold mask_of, lt_scalar, sub_scalar, np_power.
  do 2 apply wf_amap. apply wf_azip.
  - done.
  - by do 2 apply wf_amap.
  - by do 2 apply wf_amap.
Qed.

Lemma setitem_mask_wf (A : ndarray Q) mask v A' :
  setitem_mask A mask v = Ok A' → wf A → wf mask →
  wf A' ∧ shape A' = shape A.
Proof.
  unfold setitem_mask. case_decide as Hs; [|done]. intros [= <-] HA Hm.
  split; [|done]. by apply wf_azip.
Qed.

Lemma paint_values_wf A T xx yy xc yc r v A' T' :
  paint_values A T xx yy xc yc r v = Ok (A', T') →
  wf xx → wf yy → wf A → wf T →
  wf A' ∧ wf T' ∧ shape A' = shape A ∧ shape T' = shape T.
Proof.
  unfold paint_values, disk_mask, np_add. intros E Hx Hy HA HT.
  case_decide as Hs; [|done]. simpl in E.
  fold (mask_of xx yy xc yc r) in E.
  pose proof (wf_mask_of xx yy xc yc r Hs Hx Hy) as Hm.
  destruct (setitem_mask A _ v) as [A1|] eqn:E1; simpl in E; [|done].
  destruct (setitem_mask T _ 1) as [T1|] eqn:E2; simpl in E; [|done].
  injection E as <- <-.
  destruct (setitem_mask_wf _ _ _ _ E1 HA Hm).
  by destruct (setitem_mask_wf _ _ _ _ E2 HT Hm).
Qed.

Lemma foldM_draw_disks_wf c d xx yy ns : ∀ A T A' T',
  foldM (draw_disk_values c d xx yy) (A, T) ns = Ok (A', T') →
  wf xx → wf yy → wf A → wf T →
  wf A' ∧ wf T' ∧ shape A' = shape A ∧ shape T' = shape T.
Proof.
  induction ns as [|n ns IH]; intros A T A' T' E Hx Hy HA HT.
  - by injection E as <- <-.
  - cbn [foldM] in E.
    destruct (draw_disk_values c d xx yy (A, T) n) as [[A1 T1]|] eqn:E1;
      [|done].
    unfold draw_disk_values in E1.
    destruct (np_random_normal _ _ _) as [r|]; simpl in E1; [|done].
    destruct (paint_values_wf _ _ _ _ _ _ _ _ _ _ E1) as (? & ? & ? & ?);
      try done.
    destruct (IH A1 T1 A' T' E) as (? & ? & ? & ?); try done.
    split_and!; congruence.
Qed.

Lemma generate_values_wf c d A T k A1 A2 T1 :
  generate_values c d A T = Ok (k, A1, A2, T1) → wf A → wf T →
  wf A2 ∧ wf T1 ∧ shape A2 = shape A ∧ shape T1 = shape T.
Proof.
  unfold generate_values. intros E HA HT.
  destruct (pixel_grid _ _) as [[xx yy]|] eqn:Eg; simpl in E; [|done].
  apply pixel_grid_wf in Eg as (Hx & Hy & _).
  destruct (np_random_poisson _ _) as [k'|]; simpl in E; [|done].
  destruct (foldM _ _ _) as [[A1' T1']|] eqn:Ef; simpl in E; [|done].
  destruct (foldM_draw_disks_wf _ _ _ _ _ _ _ _ _ Ef) as (? & ? & ? & ?);
    try done.
  unfold np_random_randn in E.
  destruct (_ || _)%Z; simpl in E; [done|].
  unfold np_add in E. case_decide as Hs; [|done]. simpl in E.
  injection E as <- <- <- <-. split_and!; [|done|simpl; congruence|done].
  unfold np_clip. apply wf_amap, wf_azip; [done..|].
  unfold mul_scalar. apply wf_amap, wf_tabulate.
Qed.

Lemma generate_keeps_shapes self self' d h h' p A T :
  holds self h A T → wf A → wf T →
  generate self d h = Ok ((self', p), h') →
  ∃ A2 T1,
    p = (img self', img_truth self') ∧ holds self' h' A2 T1 ∧
    wf A2 ∧ wf T1 ∧ shape A2 = shape A ∧ shape T1 = shape T.
Proof.
  intros Hh HA HT E.
  destruct (generate_values (config_of self) d A T)
    as [[[[k A1] A2] T1]|e] eqn:Ev;
    [|by rewrite (generate_run_Raise _ _ _ _ _ _ Hh Ev) in E].
  destruct (generate_run_Ok _ _ _ _ _ _ _ _ _ Hh Ev)
    as (s & g & Eg & _ & _ & Hh' & _).
  rewrite Eg in E. injection E as <- <- <-.
  destruct (generate_values_wf _ _ _ _ _ _ _ _ Ev) as (? & ? & ? & ?);
    try done.
  by exists A2, T1.
Qed.

Lemma calls_keep_shapes ds : ∀ self h A T vs h',
  holds self h A T → wf A → wf T →
  calls self ds h = Ok (vs, h') →
  Forall (λ v, wf v.1 ∧ wf v.2 ∧ shape v.1 = shape A ∧ shape v.2 = shape T) vs.
Proof.
  induction ds as [|d ds IH]; intros self h A T vs h' Hh HA HT E.
  - injection E as <- <-. constructor.
  - cbn [calls] in E. unfold mbind at 1, M_bind in E.
    destruct (generate self d h) as [[[self' p] h1]|] eqn:Eg; [|done].
    destruct (generate_keeps_shapes _ _ _ _ _ _ _ _ Hh HA HT Eg)
      as (A2 & T1 & -> & Hh' & HA2 & HT1 & SA & ST).
    unfold mbind at 1, M_bind in E. rewrite (deref_holds _ _ _ _ Hh') in E.
    unfold mbind at 1, M_bind in E.
    destruct (calls self' ds h1) as [[ws h2]|] eqn:Ec; [|done].
    injection E as <- <-. constructor; [done|].
    rewrite <- SA, <- ST. by eapply IH.
Qed.

(** [X1]: the shape invariant.  Every pair a generator returns, at the
    first call or at a later one, has the shape [(nx, ny)] of the
    configuration, and the rows of both arrays agree with it. *)
Lemma session_shapes c ds vs :
  session c ds = Ok vs →
  Forall (λ v, wf v.1 ∧ wf v.2 ∧
               shape v.1 = (Z.to_nat (c_size c).1, Z.to_nat (c_size c).2) ∧
               shape v.2 = (Z.to_nat (c_size c).1, Z.to_nat (c_size c).2)) vs.
Proof.
  unfold session. unfold mbind at 1, M_bind.
  destruct (construct c ∅) as [[self h]|] eqn:E0; [|done].
  apply construct_inv in E0 as (_ & _ & Hc & _ & Hh & _).
  destruct (calls self ds h) as [[ws h']|] eqn:Ec; [|done].
  intros [= <-]. rewrite <- Hc; simpl.
  by apply (calls_keep_shapes ds self h _ _ ws h' Hh (wf_zeros _ _) (wf_zeros _ _)).
Qed.

(** ** What a run can raise

    From a generator constructed with a size [np.zeros] accepts, a rate
    [np.random.poisson] accepts and a non-negative [rstd], the only
    exception is the [IndexError] of a boolean index of the wrong shape;
    neither [np_add] nor [load] ever fails.  On a square grid nothing is
    raised at all. *)

Lemma paint_values_outcome A T xx yy xc yc r v e :
  shape xx = shape yy →
  paint_values A T xx yy xc yc r v = Raise e → e = IndexError.
Proof.
  intros Hs. unfold paint_values. rewrite disk_mask_Ok by done; simpl.
  unfold setitem_mask. repeat case_decide; simpl; intros E; by simplify_eq.
Qed.

Lemma foldM_draw_disks_outcome c d xx yy ns e :
  (0 <= c_rstd c)%Q → shape xx = shape yy →
  ∀ A T, foldM (draw_disk_values c d xx yy) (A, T) ns = Raise e →
         e = IndexError.
Proof.
  intros Hs Hxy. induction ns as [|n ns IH]; intros A T E; [done|].
  cbn [foldM] in E.
  destruct (draw_disk_values c d xx yy (A, T) n) as [[A1 T1]|e'] eqn:E1.
  - by eapply IH.
  - injection E as <-. unfold draw_disk_values in E1.
    rewrite np_random_normal_Ok in E1 by done.
    by eapply paint_values_outcome.
Qed.

Lemma generate_values_outcome c d A T (n m : Z) e :
  c_size c = (n, m) → (0 ≤ n)%Z → (0 ≤ m)%Z →
  (0 <= c_theta c)%Q → (c_theta c <= POISSON_LAM_MAX)%Q →
  (0 <= c_rstd c)%Q →
  wf A → wf T → shape A = (Z.to_nat n, Z.to_nat m) →
  generate_values c d A T = Raise e → e = IndexError.
Proof.
  intros Hc Hn Hm Hθ Hθ' Hs HA HT SA. unfold generate_values. rewrite Hc; simpl.
  destruct (pixel_grid_Ok n m Hn Hm) as (xx & yy & Eg & Hxx & Hyy & _).
  rewrite Eg; simpl. apply pixel_grid_wf in Eg as (Hx & Hy & Hxy).
  rewrite np_random_poisson_Ok by done; simpl.
  destruct (foldM _ _ _) as [[A1 T1]|e'] eqn:Ef; simpl.
  - destruct (foldM_draw_disks_wf _ _ _ _ _ _ _ _ _ Ef) as (_ & _ & SA1 & _);
      try done.
    rewrite np_random_randn_Ok by done; simpl.
    by rewrite np_add_Ok by (simpl; congruence).
  - intros [= <-]. by eapply foldM_draw_disks_outcome.
Qed.

Lemma calls_values_outcome c ds (n m : Z) e :
  c_size c = (n, m) → (0 ≤ n)%Z → (0 ≤ m)%Z →
  (0 <= c_theta c)%Q → (c_theta c <= POISSON_LAM_MAX)%Q →
  (0 <= c_rstd c)%Q →
  ∀ A T, wf A → wf T → shape A = (Z.to_nat n, Z.to_nat m) →
         calls_values c ds A T = Raise e → e = IndexError.
Proof.
  intros Hc Hn Hm Hθ Hθ' Hs. induction ds as [|d ds IH]; intros A T HA HT SA E;
    [done|].
  cbn [calls_values] in E.
  destruct (generate_values c d A T) as [[[[k A1] A2] T1]|e'] eqn:Ev.
  - destruct (generate_values_wf _ _ _ _ _ _ _ _ Ev) as (? & ? & ? & ?);
      try done.
    simpl in E.
    destruct (calls_values c ds A2 T1) as [vs|e''] eqn:Ec; [done|].
    simpl in E. injection E as <-.
    apply (IH A2 T1); [done|done|by rewrite H1|done].
  - simpl in E. injection E as <-.
    by apply (generate_values_outcome c d A T n m).
Qed.

(** [X2]: the one exception of a run.  With a size [np.zeros] accepts,
    a rate [np.random.poisson] accepts ([0 ≤ theta ≤ POISSON_LAM_MAX]),
    [rstd ≥ 0] and a run within the range of binary64, a run that fails
    fails with [IndexError], the boolean index of the wrong shape. *)
Lemma session_raises_only_IndexError c ds e z :
  np_zeros (c_size c) = Ok z →
  (0 <= c_theta c)%Q → (c_theta c <= POISSON_LAM_MAX)%Q →
  (0 <= c_rstd c)%Q → within_binary64 c ds →
  session c ds = Raise e → e = IndexError.
Proof.
  intros Ez Hθ Hθ' Hs _. rewrite session_values, Ez.
  destruct (c_size c) as [n m] eqn:Hc.
  apply np_zeros_Ok_inv in Ez as (-> & Hn & Hm & _).
  apply (calls_values_outcome c ds n m); try done; apply wf_zeros.
Qed.

Lemma calls_values_square c ds (n : Z) :
  c_size c = (n, n) → (0 ≤ n)%Z →
  (0 <= c_theta c)%Q → (c_theta c <= POISSON_LAM_MAX)%Q →
  (0 <= c_rstd c)%Q →
  ∀ A T, shape A = (Z.to_nat n, Z.to_nat n) →
         shape T = (Z.to_nat n, Z.to_nat n) →
         ∃ vs, calls_values c ds A T = Ok vs ∧ length vs = length ds.
Proof.
  intros Hc Hn Hθ Hθ' Hs. induction ds as [|d ds IH]; intros A T SA ST.
  - by exists [].
  - destruct (generate_values_square c d A T n)
      as (A1 & A2 & T1 & E & _ & SA2 & ST1 & _); try done.
    destruct (IH A2 T1) as (vs & Ec & Hl); [congruence..|].
    exists ((A2, T1) :: vs). cbn [calls_values]. rewrite E; simpl.
    rewrite Ec; simpl. split; [done|]. by rewrite Hl.
Qed.

(** ** What the loop makes of one pixel *)

Lemma hit_covers c d n i j :
  hit c d n (inject_Z (Z.of_nat j)) (inject_Z (Z.of_nat i)) = true
  ↔ covers c d n i j.
Proof. apply mask_test_inside. Qed.

(** The mask pixel becomes [1] if some disk hits it and is left alone
    otherwise. *)
Lemma px_mask_cases c d x y ns : ∀ q,
  (px_mask c d x y ns q = 1%Q ∧ ∃ n, n ∈ ns ∧ hit c d n x y = true) ∨
  (px_mask c d x y ns q = q ∧ ∀ n, n ∈ ns → hit c d n x y = false).
Proof.
  unfold px_mask. induction ns as [|n ns IH]; intros q; simpl.
  - right. split; [done|]. intros n H. by apply elem_of_nil in H.
  - destruct (hit c d n x y) eqn:Hn.
    + left. split; [|exists n; split; [left|done]].
      destruct (IH 1%Q) as [[-> _]|[-> _]]; done.
    + destruct (IH q) as [[E (n' & Hin & Hn')]|[E Hno]].
      * left. split; [done|]. exists n'. split; [by right|done].
      * right. split; [done|]. intros n' [->|Hin]%elem_of_cons; auto.
Qed.

(** The image pixel holds the value of the last disk that hits it. *)
Lemma px_image_last c d x y ns1 n ns2 q :
  hit c d n x y = true → (∀ n', n' ∈ ns2 → hit c d n' x y = false) →
  px_image c d x y (ns1 ++ n :: ns2) q = disk_v c d n.
Proof.
  intros Hn Hno. unfold px_image. rewrite foldl_app; simpl. rewrite Hn.
  clear Hn. induction ns2 as [|n' ns2 IH]; simpl; [done|].
  rewrite (Hno n') by left. apply IH. intros m Hm. apply Hno. by right.
Qed.

Lemma seq_split_at (n k : nat) :
  n < k → seq 0 k = seq 0 n ++ n :: seq (S n) (k - S n).
Proof.
  intros H. replace k with (n + S (k - S n)) at 1 by lia.
  by rewrite seq_app.
Qed.

(** ** A call on a grid with as many rows as columns

    Any call, the first or a later one: it returns, keeps the shapes,
    and every pixel of the new image and of the mask comes from the
    pixel the call found there. *)
Lemma generate_on_square_grid self d h A T :
  nx self = ny self → (0 ≤ nx self)%Z →
  (0 <= theta self)%Q → (theta self <= POISSON_LAM_MAX)%Q →
  (0 <= rstd self)%Q →
  holds self h A T →
  shape A = (Z.to_nat (nx self), Z.to_nat (nx self)) →
  shape T = (Z.to_nat (nx self), Z.to_nat (nx self)) →
  ∃ self' h' A2 T1,
    generate self d h = Ok ((self', (img self', img_truth self')), h') ∧
    config_of self' = config_of self ∧
    img_truth self' = img_truth self ∧
    holds self' h' A2 T1 ∧
    shape A2 = shape A ∧ shape T1 = shape T ∧
    ∀ i j, i < Z.to_nat (nx self) → j < Z.to_nat (nx self) →
      px T1 i j
      = px_mask (config_of self) d (inject_Z (Z.of_nat j))
                (inject_Z (Z.of_nat i)) (seq 0 (poisson_k d)) <$> px T i j ∧
      px A2 i j
      = (λ q, clip 0 255
                (px_image (config_of self) d (inject_Z (Z.of_nat j))
                          (inject_Z (Z.of_nat i)) (seq 0 (poisson_k d)) q
                 + sigma self * randn_z d i j)%Q) <$> px A i j.
Proof.
  intros Hsq Hn Hθ Hθ' Hs Hh HA HT.
  destruct (generate_values_square (config_of self) d A T (nx self))
    as (A1 & A2 & T1 & E & HA1 & HA2 & HT1 & Hpx); try done.
  { simpl. by rewrite <- Hsq. }
  destruct (generate_run_Ok _ _ _ _ _ _ _ _ _ Hh E)
    as (self' & h' & Eg & Hc & Ht & Hh' & _).
  exists self', h', A2, T1. split_and!; try done.
  intros i j Hi Hj. destruct (Hpx i j Hi Hj) as (E1 & E2 & E3).
  split; [done|]. rewrite E3, E1. by destruct (px A i j).
Qed.

(** The mask after a call is the mask before it with the disks of the
    call added: a pixel inside one of them holds [1], any other pixel
    keeps what it held. *)
Lemma mask_after_call self d h A T i j t :
  nx self = ny self → (0 ≤ nx self)%Z →
  (0 <= theta self)%Q → (theta self <= POISSON_LAM_MAX)%Q →
  (0 <= rstd self)%Q →
  holds self h A T →
  shape A = (Z.to_nat (nx self), Z.to_nat (nx self)) →
  shape T = (Z.to_nat (nx self), Z.to_nat (nx self)) →
  i < Z.to_nat (nx self) → j < Z.to_nat (nx self) →
  px T i j = Some t →
  ∃ self' h' A2 T1,
    generate self d h = Ok ((self', (img self', img_truth self')), h') ∧
    holds self' h' A2 T1 ∧
    ((px T1 i j = Some 1%Q ∧
      ∃ n, n < poisson_k d ∧ covers (config_of self) d n i j) ∨
     (px T1 i j = Some t ∧
      ∀ n, n < poisson_k d → ¬ covers (config_of self) d n i j)).
Proof.
  intros Hsq Hn Hθ Hθ' Hs Hh HA HT Hi Hj Ht.
  destruct (generate_on_square_grid self d h A T)
    as (self' & h' & A2 & T1 & E & _ & _ & Hh' & _ & _ & Hpx); try done.
  exists self', h', A2, T1. split_and!; try done.
  destruct (Hpx i j Hi Hj) as [-> _]. rewrite Ht; simpl.
  destruct (px_mask_cases (config_of self) d (inject_Z (Z.of_nat j))
              (inject_Z (Z.of_nat i)) (seq 0 (poisson_k d)) t)
    as [[-> (n & Hin & Hhit)]|[-> Hno]].
  - left. split; [done|]. exists n. apply elem_of_seq in Hin.
    split; [lia|by apply hit_covers].
  - right. split; [done|]. intros n Hk Hcov%hit_covers.
    rewrite Hno in Hcov; [done|]. apply elem_of_seq. lia.
Qed.

(** [mask] is monotonic: a call never takes a [1] away. *)
Lemma mask_monotone self d h A T i j :
  nx self = ny self → (0 ≤ nx self)%Z →
  (0 <= theta self)%Q → (theta self <= POISSON_LAM_MAX)%Q →
  (0 <= rstd self)%Q →
  holds self h A T →
  shape A = (Z.to_nat (nx self), Z.to_nat (nx self)) →
  shape T = (Z.to_nat (nx self), Z.to_nat (nx self)) →
  i < Z.to_nat (nx self) → j < Z.to_nat (nx self) →
  px T i j = Some 1%Q →
  ∃ self' h' A2 T1,
    generate self d h = Ok ((self', (img self', img_truth self')), h') ∧
    holds self' h' A2 T1 ∧ px T1 i j = Some 1%Q.
Proof.
  intros Hsq Hn Hθ Hθ' Hs Hh HA HT Hi Hj H1.
  destruct (generate_on_square_grid self d h A T)
    as (self' & h' & A2 & T1 & E & _ & _ & Hh' & _ & _ & Hpx); try done.
  exists self', h', A2, T1. split_and!; try done.
  destruct (Hpx i j Hi Hj) as [-> _]. rewrite H1; simpl. f_equal.
  by destruct (px_mask_cases (config_of self) d (inject_Z (Z.of_nat j))
                 (inject_Z (Z.of_nat i)) (seq 0 (poisson_k d)) 1%Q)
    as [[-> _]|[-> _]].
Qed.

(** Later disks win: without noise, a pixel that the [n]-th disk covers
    and no later disk covers ends with the value of that disk, provided
    the value is a gray level of [[0, 255]]. *)
Lemma overlap_precedence self d h A T i j n a :
  nx self = ny self → (0 ≤ nx self)%Z →
  (0 <= theta self)%Q → (theta self <= POISSON_LAM_MAX)%Q →
  (0 <= rstd self)%Q →
  holds self h A T →
  shape A = (Z.to_nat (nx self), Z.to_nat (nx self)) →
  shape T = (Z.to_nat (nx self), Z.to_nat (nx self)) →
  i < Z.to_nat (nx self) → j < Z.to_nat (nx self) →
  px A i j = Some a →
  (sigma self == 0)%Q →
  n < poisson_k d → covers (config_of self) d n i j →
  (∀ n', n < n' < poisson_k d → ¬ covers (config_of self) d n' i j) →
  (0 <= disk_v (config_of self) d n <= 255)%Q →
  ∃ self' h' A2 T1,
    generate self d h = Ok ((self', (img self', img_truth self')), h') ∧
    holds self' h' A2 T1 ∧
    px_eq A2 i j (disk_v (config_of self) d n) ∧
    px T1 i j = (λ _, 1%Q) <$> px T i j.
Proof.
  intros Hsq Hn Hθ Hθ' Hs Hh HA HT Hi Hj Ha Hσ Hk Hcov Hlater Hv.
  destruct (generate_on_square_grid self d h A T)
    as (self' & h' & A2 & T1 & E & _ & _ & Hh' & _ & _ & Hpx); try done.
  exists self', h', A2, T1. split_and!; try done.
  - unfold px_eq. destruct (Hpx i j Hi Hj) as [_ ->]. rewrite Ha; simpl.
    eexists. split; [done|].
    rewrite (seq_split_at n (poisson_k d)) by done.
    rewrite px_image_last.
    + assert (disk_v (config_of self) d n + sigma self * randn_z d i j
              == disk_v (config_of self) d n)%Q as E' by (rewrite Hσ; ring).
      rewrite clip_id; [done|]. by rewrite E'.
    + by apply hit_covers.
    + intros n' Hn'%elem_of_seq. apply not_true_iff_false.
      rewrite hit_covers. apply Hlater. lia.
  - destruct (Hpx i j Hi Hj) as [-> _]. destruct (px T i j); simpl; [|done].
    f_equal.
    destruct (px_mask_cases (config_of self) d (inject_Z (Z.of_nat j))
                (inject_Z (Z.of_nat i)) (seq 0 (poisson_k d)) q)
      as [[-> _]|[_ Hno]]; [done|].
    apply hit_covers in Hcov. rewrite Hno in Hcov; [done|].
    apply elem_of_seq. lia.
Qed.

(** ** The first call on a new generator *)

(** On a new square generator the mask of the first call is [1] exactly
    on the pixels that lie strictly inside one of the disks drawn. *)
Lemma first_call_mask c d h0 self h i j :
  valid_configuration c → (c_theta c <= POISSON_LAM_MAX)%Q →
  (0 <= c_rstd c)%Q →
  (c_size c).1 = (c_size c).2 →
  construct c h0 = Ok (self, h) →
  i < Z.to_nat (c_size c).1 → j < Z.to_nat (c_size c).1 →
  ∃ self' h' A2 T1,
    generate self d h = Ok ((self', (img self', img_truth self')), h') ∧
    holds self' h' A2 T1 ∧
    ((px T1 i j = Some 1%Q ∧ ∃ n, n < poisson_k d ∧ covers c d n i j) ∨
     (px T1 i j = Some 0%Q ∧ ∀ n, n < poisson_k d → ¬ covers c d n i j)).
Proof.
  intros (Hn & _ & Hθ & _ & _) Hθ' Hs Hsq Hc Hi Hj.
  apply construct_inv in Hc as (_ & _ & Hcfg & _ & Hh & _).
  assert (c_size c = (nx self, ny self)) as Hsz by by rewrite <- Hcfg.
  rewrite Hsz in *; simpl in *. rewrite <- Hsq in Hh. rewrite <- Hcfg.
  apply (mask_after_call self d h
           (zeros (Z.to_nat (nx self)) (Z.to_nat (nx self)))
           (zeros (Z.to_nat (nx self)) (Z.to_nat (nx self))) i j 0%Q Hsq);
    try done.
  - lia.
  - rewrite <- Hcfg in Hθ. by apply Qlt_le_weak.
  - by rewrite <- Hcfg in Hθ'.
  - by rewrite <- Hcfg in Hs.
  - by apply px_zeros.
Qed.

Lemma generate_values_no_disk c d A T (n m : Z) :
  c_size c = (n, m) → (0 ≤ n)%Z → (0 ≤ m)%Z →
  (0 <= c_theta c)%Q → (c_theta c <= POISSON_LAM_MAX)%Q →
  poisson_k d = 0 → shape A = (Z.to_nat n, Z.to_nat m) →
  ∃ A2,
    generate_values c d A T = Ok (0, A, A2, T) ∧ shape A2 = shape A ∧
    ∀ i j, i < Z.to_nat n → j < Z.to_nat m →
      px A2 i j
      = (λ q, clip 0 255 (q + c_sigma c * randn_z d i j)%Q) <$> px A i j.
Proof.
  intros Hc Hn Hm Hθ Hθ' Hk HA. unfold generate_values. rewrite Hc; simpl.
  destruct (pixel_grid_Ok n m Hn Hm) as (xx & yy & -> & _). simpl.
  rewrite np_random_poisson_Ok, Hk by done. simpl.
  destruct (noise_and_clip c d A n m Hc Hn Hm HA) as (A2 & E & HA2 & Hz).
  rewrite Hc in E; simpl in E.
  destruct (mul_scalar _ <$> _) as [noise|e]; simpl in *; [|done].
  destruct (np_add A noise) as [s|e]; simpl in *; [|done].
  injection E as <-. by eexists.
Qed.

(** On a new generator of any shape, a first call that draws no disk
    returns the all-zero mask and the clipped noise. *)
Lemma first_call_without_disks c d h0 self h :
  valid_configuration c → (c_theta c <= POISSON_LAM_MAX)%Q →
  poisson_k d = 0 →
  construct c h0 = Ok (self, h) →
  ∃ self' h' A2,
    generate self d h = Ok ((self', (img self', img_truth self')), h') ∧
    holds self' h' A2 (zeros (Z.to_nat (c_size c).1) (Z.to_nat (c_size c).2)) ∧
    ∀ i j, i < Z.to_nat (c_size c).1 → j < Z.to_nat (c_size c).2 →
      px A2 i j = Some (clip 0 255 (0 + c_sigma c * randn_z d i j)%Q).
Proof.
  intros (Hn & Hm & Hθ & _ & _) Hθ' Hk Hc.
  apply construct_inv in Hc as (_ & _ & Hcfg & _ & Hh & _).
  assert (c_size c = (nx self, ny self)) as Hsz by by rewrite <- Hcfg.
  rewrite Hsz in *; simpl in *.
  destruct (generate_values_no_disk c d
              (zeros (Z.to_nat (nx self)) (Z.to_nat (ny self)))
              (zeros (Z.to_nat (nx self)) (Z.to_nat (ny self)))
              (nx self) (ny self))
    as (A2 & E & _ & Hpx); [done|lia|lia|by apply Qlt_le_weak|done..|].
  rewrite <- Hcfg in E.
  destruct (generate_run_Ok _ _ _ _ _ _ _ _ _ Hh E)
    as (self' & h' & Eg & _ & _ & Hh' & _).
  exists self', h', A2. split_and!; try done.
  intros i j Hi Hj. by rewrite Hpx, px_zeros.
Qed.

(** ** The mask holds zeros and ones *)

Lemma binary_zeros n m : binary (zeros n m).
Proof.
  intros i j q. unfold px, zeros; simpl.
  destruct (replicate n (replicate m 0%Q) !! i) as [row|] eqn:E; simpl;
    [|done].
  apply lookup_replicate in E as [-> _].
  intros [-> _]%lookup_replicate. by left.
Qed.

Lemma setitem_mask_one_binary (T : ndarray Q) mask T' :
  setitem_mask T mask 1 = Ok T' → binary T → binary T'.
Proof.
  unfold setitem_mask. case_decide; [|done]. intros [= <-] HT i j q.
  rewrite px_azip. destruct (px T i j) as [t|] eqn:Et; simpl; [|done].
  destruct (px mask i j) as [[]|]; simpl; intros [= <-]; [by right|].
  by eapply HT.
Qed.

Lemma foldM_draw_disks_binary c d xx yy ns : ∀ A T A' T',
  foldM (draw_disk_values c d xx yy) (A, T) ns = Ok (A', T') →
  binary T → binary T'.
Proof.
  induction ns as [|n ns IH]; intros A T A' T' E HT.
  - by injection E as <- <-.
  - cbn [foldM] in E.
    destruct (draw_disk_values c d xx yy (A, T) n) as [[A1 T1]|] eqn:E1;
      [|done].
    apply (IH A1 T1 A' T' E).
    unfold draw_disk_values, paint_values in E1.
    destruct (np_random_normal _ _ _) as [r|]; simpl in E1; [|done].
    destruct (disk_mask _ _ _ _ _) as [mask|]; simpl in E1; [|done].
    destruct (setitem_mask A mask _) as [A0|]; simpl in E1; [|done].
    destruct (setitem_mask T mask 1) as [T0|] eqn:E2; simpl in E1; [|done].
    injection E1 as <- <-. by eapply setitem_mask_one_binary.
Qed.

Lemma generate_values_binary c d A T k A1 A2 T1 :
  generate_values c d A T = Ok (k, A1, A2, T1) → binary T → binary T1.
Proof.
  unfold generate_values. intros E HT.
  destruct (pixel_grid _ _) as [[xx yy]|]; simpl in E; [|done].
  destruct (np_random_poisson _ _) as [k'|]; simpl in E; [|done].
  destruct (foldM _ _ _) as [[A1' T1']|] eqn:Ef; simpl in E; [|done].
  destruct (mul_scalar _ <$> _) as [noise|]; simpl in E; [|done].
  destruct (np_add _ _) as [s|]; simpl in E; [|done].
  injection E as <- <- <- <-. by eapply foldM_draw_disks_binary.
Qed.

Lemma calls_values_binary c ds : ∀ A T vs,
  calls_values c ds A T = Ok vs → binary T → Forall (λ v, binary v.2) vs.
Proof.
  induction ds as [|d ds IH]; intros A T vs E HT.
  - injection E as <-. constructor.
  - cbn [calls_values] in E.
    destruct (generate_values c d A T) as [[[[k A1] A2] T1]|] eqn:Ev; [|done].
    simpl in E.
    destruct (calls_values c ds A2 T1) as [ws|] eqn:Ec; [|done].
    injection E as <-.
    pose proof (generate_values_binary _ _ _ _ _ _ _ _ Ev HT).
    constructor; [done|]. by eapply IH.
Qed.

(** ** The mask over a run of calls *)

Lemma drawn_upto_here c d ds k i j n :
  n < poisson_k d → covers c d n i j → drawn_upto c (d :: ds) k i j.
Proof. intros Hn Hc. exists 0, d, n. split_and!; [lia|done..]. Qed.

Lemma drawn_upto_later c d ds k i j :
  drawn_upto c ds k i j → drawn_upto c (d :: ds) (S k) i j.
Proof.
  intros (k' & d' & n & Hk & Hd & Hn & Hc).
  exists (S k'), d', n. split_and!; [lia|done..].
Qed.

(** A call that returns was given a rate [np.random.poisson]
    accepts. *)
Lemma generate_values_Ok_theta c d A T r :
  generate_values c d A T = Ok r →
  (0 <= c_theta c)%Q ∧ (c_theta c <= POISSON_LAM_MAX)%Q.
Proof.
  unfold generate_values. intros E.
  destruct (pixel_grid _ _) as [[xx yy]|]; simpl in E; [|done].
  by destruct (np_random_poisson_cases d (c_theta c))
    as [(_ & H)|[Er _]]; [|rewrite Er in E].
Qed.

Lemma calls_values_Ok_theta c d ds A T vs :
  calls_values c (d :: ds) A T = Ok vs →
  (0 <= c_theta c)%Q ∧ (c_theta c <= POISSON_LAM_MAX)%Q.
Proof.
  cbn [calls_values]. intros E.
  destruct (generate_values c d A T) as [r|] eqn:Ev; [|done].
  by eapply generate_values_Ok_theta.
Qed.

(** A run that returns started from two arrays of zeros and, if it made
    a call at all, was given a rate [np.random.poisson] accepts. *)
Lemma session_Ok_inv c ds vs (n m : Z) :
  c_size c = (n, m) → session c ds = Ok vs →
  (0 ≤ n)%Z ∧ (0 ≤ m)%Z ∧
  calls_values c ds (zeros (Z.to_nat n) (Z.to_nat m))
                    (zeros (Z.to_nat n) (Z.to_nat m)) = Ok vs ∧
  (ds = [] ∨ ((0 <= c_theta c)%Q ∧ (c_theta c <= POISSON_LAM_MAX)%Q)).
Proof.
  intros Hc. rewrite session_values, Hc.
  destruct (np_zeros_cases n m) as [(-> & Hn & Hm & _)|[-> _]]; [|done].
  intros E. split_and!; try done.
  destruct ds as [|d ds]; [by left|right]. by eapply calls_values_Ok_theta.
Qed.

Lemma calls_values_mask c ds (n : Z) i j :
  c_size c = (n, n) → (0 ≤ n)%Z →
  (0 <= c_theta c)%Q → (c_theta c <= POISSON_LAM_MAX)%Q →
  (0 <= c_rstd c)%Q →
  i < Z.to_nat n → j < Z.to_nat n →
  ∀ A T t vs k v,
    shape A = (Z.to_nat n, Z.to_nat n) → shape T = (Z.to_nat n, Z.to_nat n) →
    px T i j = Some t →
    calls_values c ds A T = Ok vs → vs !! k = Some v →
    (px v.2 i j = Some 1%Q ∧ drawn_upto c ds k i j) ∨
    (px v.2 i j = Some t ∧ ¬ drawn_upto c ds k i j).
Proof.
  intros Hc Hn Hθ Hθ' Hs Hi Hj.
  induction ds as [|d ds IH]; intros A T t vs k v SA ST Ht E Hk.
  { injection E as <-. by rewrite lookup_nil in Hk. }
  destruct (generate_values_square c d A T n)
    as (A1 & A2 & T1 & Ev & _ & SA2 & ST1 & Hpx); try done.
  cbn [calls_values] in E. rewrite Ev in E; simpl in E.
  destruct (calls_values c ds A2 T1) as [ws|] eqn:Ec; [|done].
  injection E as <-.
  destruct (Hpx i j Hi Hj) as (_ & ET1 & _). rewrite Ht in ET1; simpl in ET1.
  destruct (px_mask_cases c d (inject_Z (Z.of_nat j)) (inject_Z (Z.of_nat i))
              (seq 0 (poisson_k d)) t)
    as [[E1 (m & Hin & Hhit)]|[E1 Hno]]; rewrite E1 in ET1.
  - (* a disk of this call covers the pixel *)
    apply elem_of_seq in Hin. apply hit_covers in Hhit.
    assert (drawn_upto c (d :: ds) k i j) as Hd
      by (apply (drawn_upto_here c d ds k i j m); [lia|done]).
    left. split; [|done]. destruct k as [|k]; simpl in Hk.
    + by injection Hk as <-.
    + destruct (IH A2 T1 1%Q ws k v) as [[? _]|[? _]]; try done; congruence.
  - (* no disk of this call covers it *)
    assert (∀ m, m < poisson_k d → ¬ covers c d m i j) as Hno'.
    { intros m Hm Hcov%hit_covers. rewrite Hno in Hcov; [done|].
      apply elem_of_seq. lia. }
    destruct k as [|k]; simpl in Hk.
    + injection Hk as <-. right. split; [done|].
      intros (k' & d' & m & Hk' & Hd & Hm & Hcov).
      assert (k' = 0) as -> by lia. injection Hd as <-. by eapply Hno'.
    + destruct (IH A2 T1 t ws k v) as [[Hv Hd]|[Hv Hd]]; try done;
        try congruence.
      * left. split; [done|]. by apply drawn_upto_later.
      * right. split; [done|].
        intros (k' & d' & m & Hk' & Hd' & Hm & Hcov).
        destruct k' as [|k']; simpl in Hd'.
        -- injection Hd' as <-. by eapply Hno'.
        -- apply Hd. exists k', d', m. split_and!; [lia|done..].
Qed.

(** ** More on one call *)



Lemma generate_values_count c d A T k A1 A2 T1 :
  generate_values c d A T = Ok (k, A1, A2, T1) → k = poisson_k d.
Proof.
  unfold generate_values, np_random_poisson. intros E.
  destruct (pixel_grid _ _) as [[xx yy]|]; simpl in E; [|done].
  destruct (Qlt_bool _ 0); simpl in E; [done|].
  destruct (Qlt_bool POISSON_LAM_MAX _); simpl in E; [done|].
  destruct (foldM _ _ _) as [[A1' T1']|]; simpl in E; [|done].
  destruct (mul_scalar _ <$> _) as [noise|]; simpl in E; [|done].
  destruct (np_add _ _) as [s|]; simpl in E; [|done].
  by injection E as <- _ _ _.
Qed.



(** ** Values and centres of the disks *)

Lemma np_random_uniform_range (u low high : Q) :
  (0 <= u <= 1)%Q → (low <= high)%Q →
  (low <= np_random_uniform u low high <= high)%Q.
Proof. unfold np_random_uniform. intros [H0 H1] Hlh. split; nra. Qed.

Lemma px_image_in c d x y ns q :
  px_image c d x y ns q = q ∨ ∃ n, n ∈ ns ∧ px_image c d x y ns q = disk_v c d n.
Proof.
  unfold px_image. revert q. induction ns as [|n ns IH]; intros q; simpl.
  - by left.
  - destruct (IH (if hit c d n x y then disk_v c d n else q))
      as [E|(m & Hm & E)].
    + rewrite E. destruct (hit c d n x y); [|by left].
      right. exists n. split; [left|done].
    + right. exists m. split; [by right|done].
Qed.

Lemma noiseless_pixel c d x y k a z :
  (c_sigma c == 0)%Q →
  (0 <= c_vmin c)%Q → (c_vmin c <= c_vmax c)%Q → (c_vmax c <= 255)%Q →
  (∀ n, n < k → (0 <= u_v d n <= 1)%Q) →
  disk_or_background c a →
  disk_or_background c
    (clip 0 255 (px_image c d x y (seq 0 k) a + c_sigma c * z)%Q).
Proof.
  intros Hσ H0 Hlh H255 Hu Ha.
  assert (disk_or_background c (px_image c d x y (seq 0 k) a)) as Hw.
  { destruct (px_image_in c d x y (seq 0 k) a)
      as [->|(n & Hn%elem_of_seq & ->)]; [done|].
    right. apply np_random_uniform_range; [apply Hu; lia|done]. }
  set (w := px_image c d x y (seq 0 k) a) in *.
  assert (0 <= w <= 255)%Q as Hr.
  { destruct Hw as [Hw|[Hw1 Hw2]]; [rewrite Hw; split; lra|split; lra]. }
  assert (w + c_sigma c * z == w)%Q as Ew by (rewrite Hσ; ring).
  assert (clip 0 255 (w + c_sigma c * z) == w)%Q as Ec.
  { rewrite clip_id; [done|]. by rewrite Ew. }
  destruct Hw as [Hw|Hw]; [left|right]; by rewrite Ec.
Qed.

Lemma calls_values_noiseless c ds (n : Z) :
  c_size c = (n, n) → (0 ≤ n)%Z →
  (0 <= c_theta c)%Q → (c_theta c <= POISSON_LAM_MAX)%Q →
  (0 <= c_rstd c)%Q →
  (c_sigma c == 0)%Q →
  (0 <= c_vmin c)%Q → (c_vmin c <= c_vmax c)%Q → (c_vmax c <= 255)%Q →
  (∀ d, d ∈ ds → ∀ m, m < poisson_k d → (0 <= u_v d m <= 1)%Q) →
  ∀ A T vs,
    shape A = (Z.to_nat n, Z.to_nat n) → shape T = (Z.to_nat n, Z.to_nat n) →
    (∀ i j q, i < Z.to_nat n → j < Z.to_nat n → px A i j = Some q →
              disk_or_background c q) →
    calls_values c ds A T = Ok vs →
    Forall (λ v, ∀ i j q, i < Z.to_nat n → j < Z.to_nat n →
                          px v.1 i j = Some q → disk_or_background c q) vs.
Proof.
  intros Hc Hn Hθ Hθ' Hs Hσ H0 Hlh H255.
  induction ds as [|d ds IH]; intros Hu A T vs SA ST HA E.
  { injection E as <-. constructor. }
  destruct (generate_values_square c d A T n)
    as (A1 & A2 & T1 & Ev & _ & SA2 & ST1 & Hpx); try done.
  cbn [calls_values] in E. rewrite Ev in E; simpl in E.
  destruct (calls_values c ds A2 T1) as [ws|] eqn:Ec; [|done].
  injection E as <-.
  assert (∀ i j q, i < Z.to_nat n → j < Z.to_nat n → px A2 i j = Some q →
                   disk_or_background c q) as HA2.
  { intros i j q Hi Hj Hq. destruct (Hpx i j Hi Hj) as (_ & _ & E2).
    rewrite E2 in Hq. destruct (px A1 i j) as [a1|] eqn:Ea1; [|done].
    destruct (Hpx i j Hi Hj) as (E1 & _ & _). rewrite Ea1 in E1.
    destruct (px A i j) as [a|] eqn:Ea; [|done].
    simpl in E1, Hq. injection E1 as ->. injection Hq as <-.
    apply noiseless_pixel; try done.
    - intros m Hm. apply (Hu d); [left|done].
    - by apply (HA i j). }
  constructor; [done|].
  apply (IH ltac:(intros d' Hd'; apply Hu; by right) A2 T1);
    [by rewrite SA2|by rewrite ST1|done|done].
Qed.

Lemma pixel_below_spec (q : Q) (n : Z) :
  (0 <= q)%Q → (q < inject_Z n)%Q →
  pixel_below q < Z.to_nat n ∧
  (inject_Z (Z.of_nat (pixel_below q)) <= q)%Q ∧
  (q < inject_Z (Z.of_nat (pixel_below q)) + 1)%Q.
Proof.
  intros H0 Hn. unfold pixel_below.
  assert (0 ≤ Qfloor q)%Z as Hf.
  { change 0%Z with (Qfloor 0). by apply Qfloor_resp_le. }
  pose proof (Qfloor_le q) as Hle. pose proof (Qlt_floor q) as Hlt.
  assert (Qfloor q < n)%Z as Hfn.
  { rewrite Zlt_Qlt. eapply Qle_lt_trans; eassumption. }
  rewrite Z2Nat.id by done. split; [lia|]. split; [done|].
  rewrite inject_Z_plus in Hlt. exact Hlt.
Qed.

Lemma uniform_below (u : Q) (n : Z) :
  (0 <= u)%Q → (u < 1)%Q → (1 ≤ n)%Z →
  (0 <= np_random_uniform u 0 (inject_Z n))%Q ∧
  (np_random_uniform u 0 (inject_Z n) < inject_Z n)%Q.
Proof.
  intros H0 H1 Hn. unfold np_random_uniform.
  assert (1 <= inject_Z n)%Q as Hq.
  { change 1%Q with (inject_Z 1). by rewrite <- Zle_Qle. }
  split; nra.
Qed.

Lemma large_disk_covers c d n :
  (1 ≤ (c_size c).1)%Z → (1 ≤ (c_size c).2)%Z →
  (0 <= u_xc d n)%Q → (u_xc d n < 1)%Q →
  (0 <= u_yc d n)%Q → (u_yc d n < 1)%Q →
  (2 <= disk_r c d n ^ 2)%Q →
  pixel_below (disk_yc c d n) < Z.to_nat (c_size c).2 ∧
  pixel_below (disk_xc c d n) < Z.to_nat (c_size c).1 ∧
  covers c d n (pixel_below (disk_yc c d n)) (pixel_below (disk_xc c d n)).
Proof.
  intros Hnx Hny Hx0 Hx1 Hy0 Hy1 Hr.
  destruct (uniform_below (u_xc d n) (c_size c).1) as [Hxa Hxb]; try done.
  destruct (uniform_below (u_yc d n) (c_size c).2) as [Hya Hyb]; try done.
  destruct (pixel_below_spec (disk_xc c d n) (c_size c).1)
    as (Hj & Hj1 & Hj2); try done.
  destruct (pixel_below_spec (disk_yc c d n) (c_size c).2)
    as (Hi & Hi1 & Hi2); try done.
  split; [done|]. split; [done|].
  unfold covers, inside.
  set (x := inject_Z (Z.of_nat (pixel_below (disk_xc c d n)))) in *.
  set (y := inject_Z (Z.of_nat (pixel_below (disk_yc c d n)))) in *.
  set (xc := disk_xc c d n) in *. set (yc := disk_yc c d n) in *.
  set (r2 := (disk_r c d n ^ 2)%Q) in *.
  assert ((x - xc) ^ 2 < 1)%Q by nra.
  assert ((y - yc) ^ 2 < 1)%Q by nra.
  lra.
Qed.



(** ** Evaluation at concrete inputs *)

(** [evaluate t H] runs the closed term [t] and records its value. *)
Ltac evaluate t H :=
  let v := eval vm_compute in t in
  assert (t = v) as H by (vm_compute; reflexivity).

(** [holds_now] checks that the two cells of a concrete instance hold
    the given arrays. *)
Ltac holds_now :=
  repeat split; try (vm_compute; reflexivity);
  try (let X := fresh in intros X; discriminate X).

(** [binary64_now] checks that concrete parameters are within the
    range of binary64. *)
Ltac binary64_now :=
  unfold binary64_parameters; repeat split; vm_compute;
  let X := fresh in intros X; discriminate X.

(** [Qle_now] compares two concrete rationals. *)
Ltac Qle_now := unfold Qle, Qlt; simpl; lia.

(** ** Construction (C2) *)

(** [C2], as the code has it: the constructor checks nothing itself, and
    its only failures are those of [np.zeros].  It raises what
    [np.zeros((nx, ny))] raises, and it does so for a negative dimension
    and for a byte count beyond the largest index, with NumPy's
    [ValueError]; for every size [np.zeros] accepts, whatever [theta],
    [vmin], [vmax] and [sigma] are, it succeeds, stores the
    configuration, and allocates two distinct new arrays, both all-zero
    and of shape [(nx, ny)], leaving the rest of the store alone. *)
Theorem init_fails_only_where_np_zeros_fails
    (c : GeneratorConfig) (h : heap) :
  (∀ e, construct c h = Raise e ↔ np_zeros (c_size c) = Raise e) ∧
  (((c_size c).1 < 0 ∨ (c_size c).2 < 0 ∨
    NPY_MAX_INTP < nbytes (c_size c))%Z →
   construct c h = Raise ValueError) ∧
  (∀ z, np_zeros (c_size c) = Ok z →
        z = zeros (Z.to_nat (c_size c).1) (Z.to_nat (c_size c).2) ∧
        ∃ self h',
          construct c h = Ok (self, h') ∧
          config_of self = c ∧ ndisks self = None ∧
          holds self h' z z ∧
          h !! img self = None ∧ h !! img_truth self = None ∧
          (∀ l, is_Some (h !! l) → h' !! l = h !! l)).
Proof.
  split; [intros e; apply construct_Raise_iff|]. split.
  - intros H. apply construct_Raise_iff.
    destruct (c_size c) as [n m]. by apply np_zeros_Raise.
  - intros z Ez.
    destruct (construct c h) as [[self h']|e] eqn:E.
    + pose proof E as E'.
      apply construct_inv in E' as (_ & _ & Hc & Hd & Hh & H1 & H2 & Hf).
      assert (c_size c = (nx self, ny self)) as Hsz by by rewrite <- Hc.
      rewrite Hsz in Ez |- *.
      apply np_zeros_Ok_inv in Ez as (-> & _). split; [done|].
      by exists self, h'.
    + apply construct_Raise_iff in E. by rewrite E in Ez.
Qed.

(** [C2], as stated, fails: a configuration with [vmin > vmax] and
    [sigma < 0] violates the constraints, and is accepted. *)
Lemma init_accepts_invalid_configuration :
  ¬ valid_configuration c_swapped ∧
  ¬ ∃ e, construct c_swapped ∅ = Raise e.
Proof.
  split.
  - intros (_ & _ & _ & H & _). by vm_compute in H.
  - intros [e H]. by vm_compute in H.
Qed.

(** The swapped bounds are accepted, the valid configuration of size
    [(2^62, 2^62)] and the size [(2^62, 0)] are refused. *)
Lemma init_fails_only_where_np_zeros_fails_witness :
  (∃ self h', construct c_swapped ∅ = Ok (self, h') ∧
              config_of self = c_swapped ∧ ndisks self = None ∧
              holds self h' (zeros 64 64) (zeros 64 64)) ∧
  construct c_huge ∅ = Raise ValueError ∧
  construct c_wide_empty ∅ = Raise ValueError.
Proof.
  split; [|split].
  - destruct (init_fails_only_where_np_zeros_fails c_swapped ∅)
      as (_ & _ & H).
    destruct (H (zeros 64 64)) as (_ & self & h' & E & Hc & Hd & Hh & _).
    + apply (np_zeros_Ok 64 64); by vm_compute.
    + by exists self, h'.
  - destruct (init_fails_only_where_np_zeros_fails c_huge ∅) as (_ & H & _).
    apply H. right. right. by vm_compute.
  - destruct (init_fails_only_where_np_zeros_fails c_wide_empty ∅)
      as (_ & H & _).
    apply H. right. right. by vm_compute.
Defined.

(** ** Grids that are not square (C3) *)

(** [C3] fails on the code.  On a generator constructed with [nx ≠ ny]
    (the configuration being valid otherwise, with a rate
    [np.random.poisson] accepts and [rstd ≥ 0]), every call that draws
    at least one disk raises [IndexError] at the first
    [self.img[mask] = v]: [mask] has the shape [(ny, nx)] of the
    [meshgrid] arrays, [self.img] the shape [(nx, ny)]. *)
Theorem generate_raises_on_nonsquare_grid
    (c : GeneratorConfig) (d : Draws) (h h' : heap) (self : Data_Generator) :
  valid_configuration c → (c_theta c <= POISSON_LAM_MAX)%Q →
  (0 <= c_rstd c)%Q →
  (c_size c).1 ≠ (c_size c).2 → 1 ≤ poisson_k d →
  construct c h = Ok (self, h') →
  generate self d h' = Raise IndexError.
Proof.
  intros (Hn & Hm & Hθ & _ & _) Hθ' Hs Hne Hk Hc.
  apply construct_inv in Hc as (_ & _ & Hcfg & _ & Hh & _).
  rewrite (generate_run _ _ _ _ _ Hh), Hcfg.
  assert (c_size c = (nx self, ny self)) as Hsz by by rewrite <- Hcfg.
  rewrite Hsz in Hn, Hm, Hne; simpl in *.
  rewrite (generate_values_nonsquare c d _ _ (nx self) (ny self));
    [done|done|lia|lia|done| |done..].
  by apply Qlt_le_weak.
Qed.

Lemma generate_raises_on_nonsquare_grid_witness :
  ∃ self h', construct c_2x3 ∅ = Ok (self, h') ∧
             generate self d_centre h' = Raise IndexError.
Proof.
  destruct (construct c_2x3 ∅) as [[self h']|e] eqn:E; [|by vm_compute in E].
  exists self, h'. split; [done|].
  apply (generate_raises_on_nonsquare_grid c_2x3 d_centre ∅ h' self).
  - unfold valid_configuration; simpl. repeat split; (lia || done).
  - by vm_compute.
  - done.
  - simpl; lia.
  - simpl; lia.
  - done.
Defined.

(** A whole run: on a 2 x 3 grid with the notebook's parameters, a first
    call that draws one disk raises. *)
Lemma session_2x3_raises : session c_2x3 [d_centre] = Raise IndexError.
Proof. by vm_compute. Qed.

(** ** The range of the image (C5) *)

(** [C5]: whatever the instance, the store and the draws are, when
    [generate] returns, every pixel of the image it returns lies in
    [[0, 255]]. *)
Theorem image_pixels_within_0_255
    (self self' : Data_Generator) (d : Draws) (h h' : heap)
    (li lt : loc) (a : ndarray Q) (i j : nat) (q : Q) :
  generate self d h = Ok ((self', (li, lt)), h') →
  h' !! li = Some a → px a i j = Some q →
  (0 <= q <= 255)%Q.
Proof.
  unfold generate, mbind, M_bind. intros H.
  repeat case_match; try done. unfold alloc, mret, M_ret in *. simplify_eq/=.
  rewrite lookup_insert_eq. intros [= <-].
  unfold np_clip. rewrite px_amap.
  destruct (px _ i j); intros [= <-]. by apply clip_range.
Qed.

Lemma image_pixels_within_0_255_witness :
  ∃ self h self' li lt h' a q,
    construct c_demo ∅ = Ok (self, h) ∧
    generate self d_loud h = Ok ((self', (li, lt)), h') ∧
    h' !! li = Some a ∧ px a 1 1 = Some q ∧ (0 <= q <= 255)%Q.
Proof.
  evaluate (construct c_demo ∅) E0.
  match type of E0 with _ = Ok (?s, ?h) =>
    evaluate (generate s d_loud h) E1
  end.
  match type of E1 with _ = Ok (pair (pair _ (pair ?li _)) ?h2) =>
    evaluate (h2 !! li) E2
  end.
  match type of E2 with _ = Some ?a => evaluate (px a 1 1) E3 end.
  pose proof (image_pixels_within_0_255 _ _ _ _ _ _ _ _ _ _ _ E1 E2 E3) as H.
  eexists _, _, _, _, _, _, _, _.
  split; [exact E0|]. split; [exact E1|]. split; [exact E2|].
  split; [exact E3|exact H].
Defined.

(** ** The membership test (C8) *)

(** [C8]: where the comparison of line 143 is defined, its entry for a
    pixel of coordinates [(x, y)] is [True] exactly when
    [(x-xc)^2 + (y-yc)^2 < r^2]; the comparison, and with it the whole
    update of both arrays, is the same for [-r] as for [r]; and for
    [r = 0] no entry is [True]. *)
Theorem disk_test_strict_and_blind_to_sign
    (xx yy : ndarray Q) (xc yc r : Q) :
  (∀ mask i j x y,
     disk_mask xx yy xc yc r = Ok mask →
     px xx i j = Some x → px yy i j = Some y →
     ∃ b, px mask i j = Some b ∧ (b = true ↔ inside xc yc r x y)) ∧
  disk_mask xx yy xc yc (- r) = disk_mask xx yy xc yc r ∧
  (∀ self v, paint self xx yy xc yc (- r) v = paint self xx yy xc yc r v) ∧
  (∀ mask i j b,
     disk_mask xx yy xc yc 0 = Ok mask → px mask i j = Some b → b = false).
Proof.
  assert (disk_mask xx yy xc yc (- r) = disk_mask xx yy xc yc r) as Hopp.
  { unfold disk_mask. by rewrite Qsquare_opp. }
  split_and!.
  - intros mask i j x y Hm Hx Hy. unfold disk_mask, np_add in Hm.
    case_decide as Hs; [|done]. simpl in Hm. injection Hm as <-.
    eexists. split; [by apply px_mask_of|]. apply mask_test_inside.
  - done.
  - intros self v. unfold paint. by rewrite Hopp.
  - intros mask i j b Hm. unfold disk_mask, np_add in Hm.
    case_decide as Hs; [|done]. simpl in Hm. injection Hm as <-.
    unfold lt_scalar, sub_scalar, np_power.
    rewrite !px_amap, px_azip, !px_amap.
    destruct (px xx i j) as [x|]; simpl; [|done].
    destruct (px yy i j) as [y|]; simpl; [|done].
    intros [= <-]. apply Qlt_bool_false.
    pose proof (Qsquare_nonneg (x - xc)). pose proof (Qsquare_nonneg (y - yc)).
    change (0 ^ 2)%Q with 0%Q. lra.
Qed.

Lemma disk_test_strict_and_blind_to_sign_witness :
  ∃ xx yy,
    pixel_grid 3 3 = Ok (xx, yy) ∧
    disk_mask xx yy 1 1 (- (6 # 5)) = disk_mask xx yy 1 1 (6 # 5) ∧
    ∀ mask b, disk_mask xx yy 1 1 0 = Ok mask → px mask 1 1 = Some b →
              b = false.
Proof.
  evaluate (pixel_grid 3 3) E.
  match type of E with _ = Ok (?xx, ?yy) =>
    destruct (disk_test_strict_and_blind_to_sign xx yy 1 1 (6 # 5))
      as (_ & H2 & _ & _);
    destruct (disk_test_strict_and_blind_to_sign xx yy 1 1 0)
      as (_ & _ & _ & H4)
  end.
  eexists _, _. split; [exact E|]. split; [exact H2|].
  intros mask b. apply H4.
Defined.

(** ** Determinism (C9) *)

(** [C9]: construct two generators with one configuration in one store
    and call them in turn, each with the same draws as the other.  The
    run raises exactly when a lone generator of that configuration,
    given these draws, would; otherwise corresponding calls return equal
    pairs of arrays, the very pairs the lone generator returns. *)
Theorem generate_deterministic
    (c : GeneratorConfig) (ds : list Draws) (h0 h1 h2 : heap)
    (a b : Data_Generator) :
  construct c h0 = Ok (a, h1) → construct c h1 = Ok (b, h2) →
  fst <$> calls2 a b ds h2 = twice <$> session c ds ∧
  ∀ vs h', calls2 a b ds h2 = Ok (vs, h') → Forall (λ v, v.1 = v.2) vs.
Proof.
  intros Ea Eb. pose proof (construct_size _ _ _ _ Ea) as Hbytes.
  apply construct_inv in Ea as (Hn & Hm & Hca & _ & Ha & _ & _ & _).
  apply construct_inv in Eb as (_ & _ & Hcb & _ & Hb & Fb1 & Fb2 & Frb).
  assert (c_size c = (nx a, ny a)) as Hsa by by rewrite <- Hca.
  assert (c_size c = (nx b, ny b)) as Hsb by by rewrite <- Hcb.
  rewrite Hsa in Hsb. injection Hsb as Hx Hy. rewrite <- Hx, <- Hy in Hb.
  pose proof Ha as (HaA & HaT & Na).
  assert (twins a b h2 (zeros (Z.to_nat (nx a)) (Z.to_nat (ny a)))
                       (zeros (Z.to_nat (nx a)) (Z.to_nat (ny a)))) as Htw.
  { split_and!; [congruence| |done|..].
    - apply (holds_frame _ h1); [done| |]; apply Frb; eauto.
    - by eapply ne_by_lookup.
    - by eapply ne_by_lookup.
    - by eapply ne_by_lookup.
    - by eapply ne_by_lookup. }
  assert (fst <$> calls2 a b ds h2 = twice <$> session c ds) as E.
  { rewrite (calls2_run ds _ _ _ _ _ Htw), session_values, Hca, Hsa.
    rewrite Hsa in Hn, Hm, Hbytes. by rewrite np_zeros_Ok. }
  split; [done|]. intros vs h' E'. rewrite E' in E.
  destruct (session c ds) as [ws|]; [|done]. injection E as ->.
  unfold twice. by apply Forall_fmap, Forall_true.
Qed.

Lemma generate_deterministic_witness :
  ∃ a h1 b h2,
    construct c_demo ∅ = Ok (a, h1) ∧ construct c_demo h1 = Ok (b, h2) ∧
    fst <$> calls2 a b [d_centre; d_none] h2
    = twice <$> session c_demo [d_centre; d_none] ∧
    ∀ vs h', calls2 a b [d_centre; d_none] h2 = Ok (vs, h') →
             Forall (λ v, v.1 = v.2) vs.
Proof.
  evaluate (construct c_demo ∅) E0.
  match type of E0 with _ = Ok (_, ?h1) =>
    evaluate (construct c_demo h1) E1
  end.
  eexists _, _, _, _. split; [exact E0|]. split; [exact E1|].
  exact (generate_deterministic c_demo [d_centre; d_none] _ _ _ _ _ E0 E1).
Defined.

(** ** Rows are [y], columns are [x] (C10) *)

(** [C10]: on a square grid, with [xx] and [yy] the coordinate arrays
    [generate] builds, rasterising the disk of centre [(xc, yc)], radius
    [r] and value [v] succeeds, writes [v] in the image and [1] in the
    mask at row [i], column [j] when
    [(j - xc)^2 + (i - yc)^2 < r^2], and leaves both entries as they were
    otherwise: the first index is the [y] coordinate. *)
Theorem first_index_is_y
    (self : Data_Generator) (h : heap) (A T xx yy : ndarray Q)
    (xc yc r v : Q) :
  nx self = ny self → (0 ≤ nx self)%Z →
  holds self h A T →
  shape A = (Z.to_nat (nx self), Z.to_nat (ny self)) →
  shape T = (Z.to_nat (nx self), Z.to_nat (ny self)) →
  pixel_grid (nx self) (ny self) = Ok (xx, yy) →
  ∃ A' T',
    paint self xx yy xc yc r v h
    = Ok (tt, <[img_truth self := T']> (<[img self := A']> h)) ∧
    ∀ i j a t,
      i < Z.to_nat (ny self) → j < Z.to_nat (nx self) →
      px A i j = Some a → px T i j = Some t →
      (inside xc yc r (inject_Z (Z.of_nat j)) (inject_Z (Z.of_nat i)) →
       px A' i j = Some v ∧ px T' i j = Some 1%Q) ∧
      (¬ inside xc yc r (inject_Z (Z.of_nat j)) (inject_Z (Z.of_nat i)) →
       px A' i j = Some a ∧ px T' i j = Some t).
Proof.
  intros Hsq Hn Hh HA HT Hg.
  destruct (pixel_grid_Ok (nx self) (ny self)) as (? & ? & E & Hxx & Hyy & Hpx);
    [lia..|].
  rewrite Hg in E. injection E as <- <-.
  rewrite <- Hsq in *.
  rewrite (paint_run _ _ _ _ _ _ _ _ _ _ Hh).
  rewrite paint_values_Ok by congruence.
  eexists _, _. split; [done|]. intros i j a t Hi Hj Ha Ht.
  destruct (Hpx i j Hi Hj) as (x & y & Hx & Hy & Ex & Ey).
  rewrite !px_azip, Ha, Ht, (px_mask_of _ _ _ _ _ _ _ x y) by done; simpl.
  rewrite <- Ex, <- Ey, <- mask_test_inside.
  destruct (Qlt_bool _ 0); split; intros; done.
Qed.

Lemma first_index_is_y_witness :
  ∃ self h xx yy A' T',
    construct c_demo ∅ = Ok (self, h) ∧
    pixel_grid (nx self) (ny self) = Ok (xx, yy) ∧
    paint self xx yy 2 1 (1 # 2) 150 h
    = Ok (tt, <[img_truth self := T']> (<[img self := A']> h)) ∧
    px A' 1 2 = Some 150%Q ∧ px T' 1 2 = Some 1%Q ∧
    px A' 2 1 = Some 0%Q ∧ px T' 2 1 = Some 0%Q.
Proof.
  evaluate (construct c_demo ∅) E0.
  match type of E0 with _ = Ok (?s, ?h) =>
    evaluate (pixel_grid (nx s) (ny s)) E1;
    assert (holds s h (zeros 3 3) (zeros 3 3)) as Hh
      by (split_and!; [by vm_compute..|done]);
    match type of E1 with _ = Ok (?xx, ?yy) =>
      destruct (first_index_is_y s h (zeros 3 3) (zeros 3 3) xx yy
                  2 1 (1 # 2) 150
                  eq_refl ltac:(simpl; lia) Hh eq_refl eq_refl E1)
        as (A' & T' & Ep & Hpx)
    end
  end.
  simpl in Hpx.
  destruct (Hpx 1 2 0%Q 0%Q ltac:(lia) ltac:(lia) eq_refl eq_refl)
    as [[H1 H2] _]; [by vm_compute|].
  destruct (Hpx 2 1 0%Q 0%Q ltac:(lia) ltac:(lia) eq_refl eq_refl)
    as [_ [H3 H4]]; [intros H; by vm_compute in H|].
  eexists _, _, _, _, A', T'. split; [exact E0|]. split; [exact E1|].
  split; [exact Ep|]. done.
Defined.

(** ** Calls after the first (C1, C4, C6, C7)

    [generate] never clears [self.img] or [self.img_truth]: the arrays
    are zeroed once, by the constructor.  A call starts from what the
    call before it left. *)

(** [C1] fails on the code.  With the same draws (no disk, every noise
    sample [5]), a first call on a new generator returns an all-zero mask
    and the image [5] everywhere, but a call that comes after one that
    drew a disk over the middle pixel returns a mask with [1] there and
    an image with [155] there: the disk of the earlier call, plus the
    new noise. *)
Theorem second_call_keeps_earlier_disks :
  ∃ p first q,
    session c_demo [d_none] = Ok [p] ∧
    session c_demo [d_centre; d_none] = Ok [first; q] ∧
    px_eq p.1 1 1 5 ∧ px_eq p.2 1 1 0 ∧
    px_eq q.1 1 1 155 ∧ px_eq q.2 1 1 1.
Proof.
  eexists _, _, _. split; [by vm_compute|]. split; [by vm_compute|].
  split_and!; eexists; (split; [by vm_compute|by vm_compute]).
Qed.

(** The arrays themselves are shared: the second call paints its disk
    into the very arrays the first call handed out. *)
Lemma returned_arrays_change_under_later_calls :
  ∃ before after,
    first_pair_over_two_calls c_demo d_centre d_corner = Ok (before, after) ∧
    px_eq before.1 0 0 0 ∧ px_eq after.1 0 0 100 ∧
    px_eq before.2 0 0 0 ∧ px_eq after.2 0 0 1.
Proof.
  eexists _, _. split; [by vm_compute|].
  split_and!; eexists; (split; [by vm_compute|by vm_compute]).
Qed.

(** [C4] fails on the code.  The second call draws one disk, around the
    corner pixel; the middle pixel lies in no disk of that call, yet the
    mask the call returns has [1] there, left by the first call. *)
Theorem mask_keeps_pixels_of_earlier_calls :
  ∃ first q,
    session c_demo [d_centre; d_corner] = Ok [first; q] ∧
    px_eq q.2 1 1 1 ∧
    ∀ n, n < poisson_k d_corner → ¬ covers c_demo d_corner n 1 1.
Proof.
  eexists _, _. split; [by vm_compute|]. split.
  - eexists. split; by vm_compute.
  - intros n _ H. by vm_compute in H.
Qed.

(** [C6] fails on the code.  The second call draws no disk, and returns
    a mask that is not all-zero and an image that is not the clipped
    noise: the middle pixel holds [155] where the clipped noise is [5]. *)
Theorem call_without_disks_after_a_disk :
  ∃ first q,
    session c_demo [d_centre; d_none] = Ok [first; q] ∧
    poisson_k d_none = 0 ∧
    px_eq q.2 1 1 1 ∧
    px_eq q.1 1 1 155 ∧
    (clip 0 255 (c_sigma c_demo * randn_z d_none 1 1) == 5)%Q.
Proof.
  eexists _, _. split; [by vm_compute|]. split; [done|].
  split_and!; [eexists; split; by vm_compute..|by vm_compute].
Qed.

(** [C7] fails on the code in one of its parts.  Without noise, the
    second call draws two overlapping disks of values [100] then [150].
    The pixel of row 1, column 1 lies in both and ends with the value
    [150] of the second, as claimed; but the mask has [1] at the corner
    pixel, which lies in neither disc and was set by the first call. *)
Theorem mask_exceeds_union_of_two_disks :
  ∃ first q,
    session c_quiet [d_corner; d_pair] = Ok [first; q] ∧
    c_sigma c_quiet = 0%Q ∧ poisson_k d_pair = 2 ∧
    (disk_v c_quiet d_pair 0 == 100)%Q ∧ (disk_v c_quiet d_pair 1 == 150)%Q ∧
    covers c_quiet d_pair 0 1 1 ∧ covers c_quiet d_pair 1 1 1 ∧
    px_eq q.1 1 1 150 ∧
    ¬ covers c_quiet d_pair 0 0 0 ∧ ¬ covers c_quiet d_pair 1 0 0 ∧
    px_eq q.2 0 0 1.
Proof.
  eexists _, _. split; [by vm_compute|].
  split_and!; try done; try by vm_compute.
  - eexists. split; by vm_compute.
  - eexists. split; by vm_compute.
Qed.

(** * Further properties of the generator *)

(** The shape invariant on a 2 x 3 grid: two calls without disks. *)
Lemma session_shapes_witness :
  ∃ vs, session c_2x3 [d_none; d_none] = Ok vs ∧
        Forall (λ v, wf v.1 ∧ wf v.2 ∧ shape v.1 = (2, 3) ∧ shape v.2 = (2, 3))
               vs.
Proof.
  evaluate (session c_2x3 [d_none; d_none]) E.
  eexists. split; [exact E|].
  exact (session_shapes c_2x3 [d_none; d_none] _ E).
Defined.

(** A run that fails on a 2 x 3 grid: a call without disks, then a call
    with one disk. *)
Lemma session_raises_only_IndexError_witness :
  ∃ e, session c_2x3 [d_none; d_centre] = Raise e ∧ e = IndexError.
Proof.
  evaluate (session c_2x3 [d_none; d_centre]) E.
  eexists. split; [exact E|].
  refine (session_raises_only_IndexError c_2x3 [d_none; d_centre] _
            (zeros 2 3) ltac:(apply (np_zeros_Ok 2 3); by vm_compute)
            ltac:(Qle_now) ltac:(vm_compute; discriminate) ltac:(Qle_now)
            _ E).
  split; [binary64_now|]. intros d Hd n _.
  apply elem_of_cons in Hd as [->|Hd]; [vm_compute; discriminate|].
  apply elem_of_cons in Hd as [->|Hd]; [vm_compute; discriminate|].
  by apply elem_of_nil in Hd.
Defined.

(** [X4]: the mask is binary.  Every entry of every mask a generator
    returns, at the first call or at a later one, is [0] or [1]. *)
Theorem mask_is_binary (c : GeneratorConfig) (ds : list Draws) vs :
  session c ds = Ok vs → Forall (λ v, binary v.2) vs.
Proof.
  rewrite session_values.
  destruct (np_zeros (c_size c)) as [z|] eqn:Ez; [|done].
  intros E. apply (calls_values_binary c ds z z vs E).
  destruct (c_size c) as [n m].
  apply np_zeros_Ok_inv in Ez as [-> _]. apply binary_zeros.
Qed.

Lemma mask_is_binary_witness :
  ∃ vs, session c_demo [d_centre; d_corner] = Ok vs ∧
        Forall (λ v, binary v.2) vs.
Proof.
  evaluate (session c_demo [d_centre; d_corner]) E.
  eexists. split; [exact E|].
  exact (mask_is_binary c_demo [d_centre; d_corner] _ E).
Defined.

(** [X5]: the mask over a run.  On a square grid, the mask returned by
    the call number [k] of a run has [1] at row [i], column [j] exactly
    when some disk drawn by that call or by an earlier call of the run
    covers the pixel, and [0] otherwise: the mask is the union of all
    the disks drawn since the generator was constructed. *)
Theorem mask_is_union_of_all_disks_so_far
    (c : GeneratorConfig) (ds : list Draws) vs (k : nat) v (i j : nat) :
  (0 ≤ (c_size c).1)%Z → (c_size c).1 = (c_size c).2 →
  (0 <= c_theta c)%Q → (0 <= c_rstd c)%Q →
  session c ds = Ok vs → vs !! k = Some v →
  i < Z.to_nat (c_size c).1 → j < Z.to_nat (c_size c).1 →
  (px v.2 i j = Some 1%Q ∧ drawn_upto c ds k i j) ∨
  (px v.2 i j = Some 0%Q ∧ ¬ drawn_upto c ds k i j).
Proof.
  intros Hn Hsq Hθ Hs E Hk Hi Hj.
  destruct (c_size c) as [n m] eqn:Hc; simpl in *. subst m.
  destruct (session_Ok_inv c ds vs n n Hc E) as (_ & _ & Ec & [->|[_ Hθ']]).
  { injection Ec as <-. by rewrite lookup_nil in Hk. }
  apply (calls_values_mask c ds n i j Hc Hn Hθ Hθ' Hs Hi Hj
           (zeros (Z.to_nat n) (Z.to_nat n)) (zeros (Z.to_nat n) (Z.to_nat n))
           0%Q vs k v); try done.
  by apply px_zeros.
Qed.

Lemma mask_is_union_of_all_disks_so_far_witness :
  ∃ vs v,
    session c_demo [d_centre; d_corner] = Ok vs ∧ vs !! 1 = Some v ∧
    ((px v.2 1 1 = Some 1%Q ∧ drawn_upto c_demo [d_centre; d_corner] 1 1 1) ∨
     (px v.2 1 1 = Some 0%Q ∧ ¬ drawn_upto c_demo [d_centre; d_corner] 1 1 1)).
Proof.
  evaluate (session c_demo [d_centre; d_corner]) E.
  match type of E with _ = Ok ?vs => evaluate (vs !! 1) Ek end.
  eexists _, _. split; [exact E|]. split; [exact Ek|].
  exact (mask_is_union_of_all_disks_so_far
           c_demo [d_centre; d_corner] _ 1 _ 1 1
           ltac:(simpl; lia) eq_refl
           ltac:(unfold Qle; simpl; lia) ltac:(unfold Qle; simpl; lia)
           E Ek ltac:(simpl; lia) ltac:(simpl; lia)).
Defined.

(** [X3]: on a square grid nothing is raised.  With [nx = ny] of a
    size [np.zeros] accepts, [0 ≤ theta ≤ POISSON_LAM_MAX], [rstd ≥ 0]
    and a run within the range of binary64, a generator returns at every
    call of the run: also on the empty grid, with [vmin > vmax] and with
    [sigma < 0]. *)
Theorem run_on_square_grid_returns
    (c : GeneratorConfig) (ds : list Draws) (z : ndarray Q) :
  (c_size c).1 = (c_size c).2 → np_zeros (c_size c) = Ok z →
  (0 <= c_theta c)%Q → (c_theta c <= POISSON_LAM_MAX)%Q →
  (0 <= c_rstd c)%Q → within_binary64 c ds →
  ∃ vs, session c ds = Ok vs ∧ length vs = length ds.
Proof.
  intros Hsq Ez Hθ Hθ' Hs _. rewrite session_values, Ez.
  destruct (c_size c) as [n m] eqn:Hc; simpl in *. subst m.
  apply np_zeros_Ok_inv in Ez as (-> & Hn & _).
  by apply (calls_values_square c ds n).
Qed.

Lemma run_on_square_grid_returns_witness :
  ∃ vs, session c_swapped [d_centre; d_none] = Ok vs ∧ length vs = 2.
Proof.
  refine (run_on_square_grid_returns c_swapped [d_centre; d_none]
            (zeros 64 64) eq_refl
            ltac:(apply (np_zeros_Ok 64 64); by vm_compute)
            ltac:(Qle_now) ltac:(vm_compute; discriminate) ltac:(Qle_now)
            _).
  split; [binary64_now|]. intros d Hd n _.
  apply elem_of_cons in Hd as [->|Hd]; [vm_compute; discriminate|].
  apply elem_of_cons in Hd as [->|Hd]; [vm_compute; discriminate|].
  by apply elem_of_nil in Hd.
Defined.



(** [X7]: a call that draws no disk.  On a grid of any shape, square or
    not, at the first call or at a later one, and whatever [rstd] is, a
    call that draws no disk (with a rate [np.random.poisson] accepts,
    [0 ≤ theta ≤ POISSON_LAM_MAX]) returns: it leaves the mask as it was
    and returns the image it found plus the noise, clipped. *)
Theorem call_without_disks
    (self : Data_Generator) (d : Draws) (h : heap) (A T : ndarray Q) :
  (0 ≤ nx self)%Z → (0 ≤ ny self)%Z →
  (0 <= theta self)%Q → (theta self <= POISSON_LAM_MAX)%Q →
  poisson_k d = 0 →
  holds self h A T →
  shape A = (Z.to_nat (nx self), Z.to_nat (ny self)) →
  ∃ self' h' A2,
    generate self d h = Ok ((self', (img self', img_truth self')), h') ∧
    holds self' h' A2 T ∧ shape A2 = shape A ∧
    ∀ i j, i < Z.to_nat (nx self) → j < Z.to_nat (ny self) →
      px A2 i j
      = (λ q, clip 0 255 (q + sigma self * randn_z d i j)%Q) <$> px A i j.
Proof.
  intros Hn Hm Hθ Hθ' Hk Hh SA.
  destruct (generate_values_no_disk (config_of self) d A T (nx self) (ny self))
    as (A2 & E & SA2 & Hpx); try done.
  destruct (generate_run_Ok _ _ _ _ _ _ _ _ _ Hh E)
    as (self' & h' & Eg & _ & _ & Hh' & _).
  by exists self', h', A2.
Qed.

Lemma call_without_disks_witness :
  ∃ self h self' h' A2,
    construct c_2x3 ∅ = Ok (self, h) ∧
    generate self d_none h = Ok ((self', (img self', img_truth self')), h') ∧
    holds self' h' A2 (zeros 2 3) ∧ shape A2 = (2, 3) ∧
    ∀ i j, i < 2 → j < 3 →
      px A2 i j = (λ q, clip 0 255 (q + 30 * 5)%Q) <$> px (zeros 2 3) i j.
Proof.
  evaluate (construct c_2x3 ∅) E0.
  match type of E0 with _ = Ok (?s, ?h) =>
    destruct (call_without_disks s d_none h (zeros 2 3) (zeros 2 3)
                ltac:(simpl; lia) ltac:(simpl; lia) ltac:(Qle_now)
                ltac:(vm_compute; discriminate) eq_refl
                ltac:(holds_now) eq_refl)
      as (self' & h' & A2 & H);
    exists s, h, self', h', A2; split; [exact E0|exact H]
  end.
Defined.

(** [X8]: what a call does to the instance.  A call that returns leaves
    the configuration alone, records the number of disks it drew, keeps
    [self.img_truth] pointing to the one mask array, which is the mask it
    returns, and makes [self.img] point to an array that did not exist
    before, which is the image it returns. *)
Theorem generate_rebinds_image_only
    (self self' : Data_Generator) (d : Draws) (h h' : heap) (li lt : loc)
    (A T : ndarray Q) :
  holds self h A T →
  generate self d h = Ok ((self', (li, lt)), h') →
  config_of self' = config_of self ∧ ndisks self' = Some (poisson_k d) ∧
  lt = img_truth self ∧ img_truth self' = img_truth self ∧
  li = img self' ∧ h !! li = None ∧ li ≠ img self ∧ is_Some (h' !! li).
Proof.
  intros Hh E. pose proof E as E'. rewrite (generate_run _ _ _ _ _ Hh) in E'.
  destruct (generate_values (config_of self) d A T)
    as [[[[k A1] A2] T1]|] eqn:Ev; [|done].
  apply generate_values_count in Ev as Hk. subst k.
  destruct (generate_run_Ok _ _ _ _ _ _ _ _ _ Hh Ev)
    as (s & g & Eg & Hc & Ht & Hh' & Hnew & _).
  rewrite Eg in E. injection E as <- <- <- <-.
  cbv zeta in E'. injection E' as Es _. destruct Hh as (HA & _ & _).
  destruct Hh' as (HA2 & _ & _).
  split_and!; try done.
  - by rewrite <- Es.
  - intros Heq. rewrite Heq in Hnew. congruence.
Qed.

Lemma generate_rebinds_image_only_witness :
  ∃ self h self' li lt h',
    construct c_demo ∅ = Ok (self, h) ∧
    generate self d_pair h = Ok ((self', (li, lt)), h') ∧
    config_of self' = config_of self ∧ ndisks self' = Some 2 ∧
    lt = img_truth self ∧ img_truth self' = img_truth self ∧
    li = img self' ∧ h !! li = None ∧ li ≠ img self ∧ is_Some (h' !! li).
Proof.
  evaluate (construct c_demo ∅) E0.
  match type of E0 with _ = Ok (?s, ?h) =>
    evaluate (generate s d_pair h) E1;
    eexists _, _, _, _, _, _; split; [exact E0|]; split; [exact E1|];
    exact (generate_rebinds_image_only s _ d_pair h _ _ _
             (zeros 3 3) (zeros 3 3) ltac:(holds_now) E1)
  end.
Defined.



(** [X10]: a call touches no array but its own.  Every array that was in
    the store before the call, apart from the two of the instance, is
    the same after it. *)
Theorem generate_frame
    (self self' : Data_Generator) (d : Draws) (h h' : heap) (p : loc * loc)
    (A T : ndarray Q) (l : loc) :
  holds self h A T →
  generate self d h = Ok ((self', p), h') →
  l ≠ img self → l ≠ img_truth self → is_Some (h !! l) →
  h' !! l = h !! l.
Proof.
  intros Hh E H1 H2 [a Hl].
  destruct (generate_values (config_of self) d A T)
    as [[[[k A1] A2] T1]|] eqn:Ev;
    [|by rewrite (generate_run_Raise _ _ _ _ _ _ Hh Ev) in E].
  destruct (generate_run_Ok _ _ _ _ _ _ _ _ _ Hh Ev)
    as (s & g & Eg & _ & _ & _ & Hnew & _ & Hfr).
  rewrite Eg in E. injection E as <- <- <-.
  apply Hfr; try done. intros ->. congruence.
Qed.

Lemma generate_frame_witness :
  ∃ a h1 b h2 b' p h3,
    construct c_demo ∅ = Ok (a, h1) ∧ construct c_demo h1 = Ok (b, h2) ∧
    generate b d_centre h2 = Ok ((b', p), h3) ∧
    h3 !! img a = h2 !! img a.
Proof.
  evaluate (construct c_demo ∅) E0.
  match type of E0 with _ = Ok (?a, ?h1) =>
    evaluate (construct c_demo h1) E1;
    match type of E1 with _ = Ok (?b, ?h2) =>
      evaluate (generate b d_centre h2) E2;
      eexists _, _, _, _, _, _, _;
      split; [exact E0|]; split; [exact E1|]; split; [exact E2|];
      exact (generate_frame b _ d_centre h2 _ _ (zeros 3 3) (zeros 3 3) (img a)
               ltac:(holds_now) E2
               ltac:(let X := fresh in intros X; discriminate X)
               ltac:(let X := fresh in intros X; discriminate X)
               ltac:(eexists; vm_compute; reflexivity))
    end
  end.
Defined.

(** [X11]: a negative [theta], which the constructor lets through, makes
    every call raise [ValueError], at the Poisson draw: before any disk
    is drawn and before any array is touched. *)
Theorem generate_rejects_negative_theta
    (self : Data_Generator) (d : Draws) (h : heap) :
  (0 ≤ nx self)%Z → (0 ≤ ny self)%Z → (theta self < 0)%Q →
  generate self d h = Raise ValueError.
Proof.
  intros Hn Hm Hθ%Qlt_bool_iff.
  destruct (pixel_grid_Ok (nx self) (ny self) Hn Hm) as (xx & yy & Eg & _).
  unfold generate, mbind, M_bind.
  rewrite Eg; simpl. unfold np_random_poisson. by rewrite Hθ.
Qed.

Lemma generate_rejects_negative_theta_witness :
  ∃ self h, construct c_negative_rate ∅ = Ok (self, h) ∧
            generate self d_none h = Raise ValueError.
Proof.
  evaluate (construct c_negative_rate ∅) E0.
  match type of E0 with _ = Ok (?s, ?h) =>
    exists s, h; split; [exact E0|];
    exact (generate_rejects_negative_theta s d_none h
             ltac:(simpl; lia) ltac:(simpl; lia) ltac:(Qle_now))
  end.
Defined.



(** [X12]: a negative [rstd], which the constructor lets through, makes
    every call that draws at least one disk raise [ValueError], at the
    draw of the first radius: whatever the shape of the grid is, so
    before the [IndexError] of a grid that is not square. *)
Theorem generate_rejects_negative_rstd
    (self : Data_Generator) (d : Draws) (h : heap) :
  (0 ≤ nx self)%Z → (0 ≤ ny self)%Z →
  (0 <= theta self)%Q → (rstd self < 0)%Q → 1 ≤ poisson_k d →
  generate self d h = Raise ValueError.
Proof.
  intros Hn Hm Hθ Hs%Qlt_bool_iff Hk.
  destruct (pixel_grid_Ok (nx self) (ny self) Hn Hm) as (xx & yy & Eg & _).
  unfold generate, mbind, M_bind.
  rewrite Eg; simpl.
  destruct (np_random_poisson_cases d (theta self)) as [(-> & _)|[-> _]];
    [simpl|reflexivity].
  destruct (poisson_k d) as [|k]; [lia|].
  unfold for_range; cbn [seq for_each]. unfold mbind, M_bind.
  unfold draw_disk, mbind, M_bind, np_random_normal; simpl.
  by rewrite Hs.
Qed.

Lemma generate_rejects_negative_rstd_witness :
  ∃ self h, construct c_negative_spread ∅ = Ok (self, h) ∧
            generate self d_centre h = Raise ValueError.
Proof.
  evaluate (construct c_negative_spread ∅) E0.
  match type of E0 with _ = Ok (?s, ?h) =>
    exists s, h; split; [exact E0|];
    exact (generate_rejects_negative_rstd s d_centre h
             ltac:(simpl; lia) ltac:(simpl; lia) ltac:(Qle_now) ltac:(Qle_now)
             ltac:(simpl; lia))
  end.
Defined.



(** [X14]: without noise the images keep to the values of the disks.
    On a square grid, with [sigma = 0] and [0 ≤ vmin ≤ vmax ≤ 255], and a
    uniform sampler that keeps to the unit interval, every pixel of
    every image of a run is [0] or lies between [vmin] and [vmax]: the
    clipping changes nothing, at the first call and at every later
    one. *)
Theorem noiseless_images_take_disk_values
    (c : GeneratorConfig) (ds : list Draws) vs :
  (0 ≤ (c_size c).1)%Z → (c_size c).1 = (c_size c).2 →
  (0 <= c_theta c)%Q → (0 <= c_rstd c)%Q →
  (c_sigma c == 0)%Q →
  (0 <= c_vmin c)%Q → (c_vmin c <= c_vmax c)%Q → (c_vmax c <= 255)%Q →
  (∀ d, d ∈ ds → ∀ m, m < poisson_k d → (0 <= u_v d m <= 1)%Q) →
  session c ds = Ok vs →
  Forall (λ v, ∀ i j q, i < Z.to_nat (c_size c).1 → j < Z.to_nat (c_size c).1 →
                        px v.1 i j = Some q → disk_or_background c q) vs.
Proof.
  intros Hn Hsq Hθ Hs Hσ H0 Hlh H255 Hu E.
  destruct (c_size c) as [n m] eqn:Hc; simpl in *. subst m.
  destruct (session_Ok_inv c ds vs n n Hc E) as (_ & _ & Ec & [->|[_ Hθ']]).
  { injection Ec as <-. constructor. }
  apply (calls_values_noiseless c ds n Hc Hn Hθ Hθ' Hs Hσ H0 Hlh H255 Hu
           (zeros (Z.to_nat n) (Z.to_nat n)) (zeros (Z.to_nat n) (Z.to_nat n)));
    try done.
  intros i j q Hi Hj. rewrite px_zeros by done. intros [= <-]. by left.
Qed.

Lemma noiseless_images_take_disk_values_witness :
  ∃ vs, session c_quiet [d_centre; d_corner] = Ok vs ∧
        Forall (λ v, ∀ i j q, i < 3 → j < 3 → px v.1 i j = Some q →
                              disk_or_background c_quiet q) vs.
Proof.
  evaluate (session c_quiet [d_centre; d_corner]) E.
  eexists. split; [exact E|].
  refine (noiseless_images_take_disk_values c_quiet [d_centre; d_corner] _
           ltac:(simpl; lia) eq_refl ltac:(Qle_now) ltac:(Qle_now)
           ltac:(reflexivity) ltac:(Qle_now) ltac:(Qle_now) ltac:(Qle_now)
           _ E).
  intros d Hd m _.
  apply elem_of_cons in Hd as [->|Hd]; [split; Qle_now|].
  apply elem_of_cons in Hd as [->|Hd]; [split; Qle_now|].
  by apply elem_of_nil in Hd.
Defined.

(** [X15]: a large disk is never lost.  The centres are drawn in
    [[0, nx) x [0, ny)] and the pixels sit at the integer points from
    [0] to [nx - 1], so a centre is at distance less than [1] along each
    axis from the pixel below it: on a square grid with at least one
    pixel, a disk whose squared radius is at least [2] marks a pixel of
    the mask the call returns. *)
Theorem large_disk_marks_a_pixel
    (c : GeneratorConfig) (ds : list Draws) vs (k : nat) (d : Draws) v
    (n : nat) :
  (1 ≤ (c_size c).1)%Z → (c_size c).1 = (c_size c).2 →
  (0 <= c_theta c)%Q → (0 <= c_rstd c)%Q →
  session c ds = Ok vs → ds !! k = Some d → vs !! k = Some v →
  n < poisson_k d →
  (0 <= u_xc d n)%Q → (u_xc d n < 1)%Q →
  (0 <= u_yc d n)%Q → (u_yc d n < 1)%Q →
  (2 <= disk_r c d n ^ 2)%Q →
  ∃ i j, i < Z.to_nat (c_size c).1 ∧ j < Z.to_nat (c_size c).1 ∧
         covers c d n i j ∧ px v.2 i j = Some 1%Q.
Proof.
  intros Hn Hsq Hθ Hs E Hd Hv Hk Hx0 Hx1 Hy0 Hy1 Hr.
  destruct (large_disk_covers c d n) as (Hi & Hj & Hcov); try done.
  { by rewrite <- Hsq. }
  rewrite <- Hsq in Hi.
  exists (pixel_below (disk_yc c d n)), (pixel_below (disk_xc c d n)).
  split; [done|]. split; [done|]. split; [done|].
  destruct (c_size c) as [N M] eqn:Hc; simpl in *. subst M.
  destruct (session_Ok_inv c ds vs N N Hc E) as (_ & _ & Ec & [->|[_ Hθ']]).
  { by rewrite lookup_nil in Hd. }
  destruct (calls_values_mask c ds N _ _ Hc ltac:(lia) Hθ Hθ' Hs Hi Hj
              (zeros (Z.to_nat N) (Z.to_nat N)) (zeros (Z.to_nat N) (Z.to_nat N))
              0%Q vs k v eq_refl eq_refl (px_zeros _ _ _ _ Hi Hj) Ec Hv)
    as [[H1 _]|[_ Hno]]; [done|].
  destruct Hno. exists k, d, n. by split_and!.
Qed.

Lemma large_disk_marks_a_pixel_witness :
  ∃ vs v, session c_demo [d_none; d_wide] = Ok vs ∧ vs !! 1 = Some v ∧
          ∃ i j, i < 3 ∧ j < 3 ∧ covers c_demo d_wide 0 i j ∧
                 px v.2 i j = Some 1%Q.
Proof.
  evaluate (session c_demo [d_none; d_wide]) E.
  match type of E with _ = Ok ?l => evaluate (l !! 1) Ek end.
  eexists _, _. split; [exact E|]. split; [exact Ek|].
  exact (large_disk_marks_a_pixel c_demo [d_none; d_wide] _ 1 d_wide _ 0
           ltac:(simpl; lia) eq_refl ltac:(Qle_now) ltac:(Qle_now)
           E eq_refl Ek ltac:(simpl; lia)
           ltac:(Qle_now) ltac:(Qle_now) ltac:(Qle_now) ltac:(Qle_now)
           ltac:(vm_compute; discriminate)).
Defined.
